(** * Implicitron evaluator: masking, evaluation loop and JSON dump

    Shallow embedding of [pytorch3d/implicitron/evaluation/evaluator.py].

    Python objects live in a store addressed by locations, so that
    [copy.deepcopy], [setattr] and the in-place tagging of result records
    are modelled with their aliasing.  Code that raises is modelled in a
    state-and-exception monad in which the store reached at the moment of
    the [raise] is kept.  The learned model, the metrics library, LPIPS and
    the file system are collaborators given by an interface; every call to
    them is recorded in a log together with its arguments. *)

From Stdlib Require Import ZArith Ascii.
From stdpp Require Import base option list strings gmap fin_maps.

Open Scope Z_scope.

(** ** Exceptions and outcomes *)

Inductive exn :=
| ValueError (msg : string)
| TypeError
| AttributeError (name : string)
| KeyError (key : string)
| RuntimeError
| ExternalError (what : string).

Inductive outcome (A : Type) :=
| Ret (a : A)
| Raise (e : exn).
Arguments Ret {A} a.
Arguments Raise {A} e.

(** What a collaborator answers: a value, or an exception of its own,
    identified by a name.  It reaches the caller as [ExternalError]. *)
Inductive answer (A : Type) :=
| Answer (a : A)
| Fails (what : string).
Arguments Answer {A} a.
Arguments Fails {A} what.

(** The message of the only exception the file raises itself (line 147). *)
Definition config_error : exn :=
  ValueError "Cannot save results to json without a specified save path.".

(** ** Tensors

    A tensor is kept batch-major: the list of its frames along dimension 0,
    each frame flattened to the list of its entries.  This is the layout
    (N, C, H, W) of the fields of a collated batch; a field of another
    rank, which the tensor library would align with the flags on its
    trailing dimensions, is outside the model.  The entries belong to a
    scalar type with the multiplication of the tensor library; one type
    stands for the dtype of every field, so the promotion of a product to
    another dtype is not modelled. *)

Class Scalar (R : Type) := {
  mul : R → R → R;
  zero : R;
  one : R
}.

#[export] Instance Z_Scalar : Scalar Z := {| mul := Z.mul; zero := 0; one := 1 |}.

Definition loc := nat.

(** Attribute values of a frame-data object. *)
Inductive value :=
| VNone
| VTensor (l : loc)
| VStrs (ss : list string)
| VStr (s : string)
| VInt (z : Z).

(** The same, with tensors read out of the store: what a callee sees. *)
Inductive rvalue (R : Type) :=
| RNone
| RTensor (t : list (list R))
| RStrs (ss : list string)
| RStr (s : string)
| RInt (z : Z).
Arguments RNone {R}.
Arguments RTensor {R} t.
Arguments RStrs {R} ss.
Arguments RStr {R} s.
Arguments RInt {R} z.

(** Values of a result record (one metric dictionary). *)
Inductive jvalue (R : Type) :=
| JNull
| JInt (z : Z)
| JNum (x : R)
| JStr (s : string).
Arguments JNull {R}.
Arguments JInt {R} z.
Arguments JNum {R} x.
Arguments JStr {R} s.

Inductive obj (R : Type) :=
| OTensor (t : list (list R))
| OFrame (attrs : gmap string value)
| OList (items : list loc)
| ODict (d : gmap string (jvalue R)).
Arguments OTensor {R} t.
Arguments OFrame {R} attrs.
Arguments OList {R} items.
Arguments ODict {R} d.

Inductive EvaluationMode := TRAINING | EVALUATION.

(** ** Collaborators

    [is_known_frame_scalar] is [ds_utils.is_known_frame] on one frame type.
    The other fields are the callables the evaluator is handed or imports;
    each one may change the outside world and may fail. *)

Class Collaborators (R : Type) := {
  World : Type;
  Device : Type;
  Cameras : Type;
  Render : Type;
  Lpips : Type;
  BatchResult : Type;
  is_known_frame_scalar : string → bool;
  lpips_LPIPS : string → World → answer Lpips * World;
  lpips_to : Lpips → Device → World → answer Lpips * World;
  model_eval : World → World;
  model_forward :
    gmap string (rvalue R) → EvaluationMode → World →
    answer (gmap string Render) * World;
  eval_batch :
    gmap string (rvalue R) → Render → string → Lpips → option Cameras →
    World → answer BatchResult * World;
  summarize_nvs_eval_results :
    list BatchResult → bool → list R → World →
    answer (gmap string (list (gmap string (jvalue R)))) * World;
  pretty_print_nvs_metrics :
    list (gmap string (jvalue R)) → World → answer unit * World;
  open_for_writing : string → World → answer unit * World
}.

Section Evaluator.

Context {R : Type} `{!Scalar R} `{!Collaborators R}.

(** ** Calls to the collaborators, as logged *)

Inductive event :=
| EvLpips (net : string) (device : Device)
| EvModelEval
| EvModelCall (kwargs : gmap string (rvalue R)) (mode : EvaluationMode)
| EvEvalBatch (frame : loc) (frame_data : gmap string (rvalue R))
    (implicitron_render : Render) (bg_color : string) (lpips_model : Lpips)
    (source_cameras : option Cameras)
| EvSummarize (per_batch : list BatchResult) (is_multisequence : bool)
    (bin_breaks : list R)
| EvPrettyPrint (results : list (gmap string (jvalue R)))
| EvLogInfo (msg : string)
| EvJsonDump (path : string) (content : list (gmap string (jvalue R))).

Record state := mkState {
  heap : gmap loc (obj R);
  log : list event;
  files : gmap string (list (gmap string (jvalue R)));
  world : World
}.

Definition with_heap (f : gmap loc (obj R) → gmap loc (obj R)) (σ : state) : state :=
  mkState (f (heap σ)) (log σ) (files σ) (world σ).
Definition with_log (f : list event → list event) (σ : state) : state :=
  mkState (heap σ) (f (log σ)) (files σ) (world σ).
Definition with_files
    (f : gmap string (list (gmap string (jvalue R))) →
         gmap string (list (gmap string (jvalue R)))) (σ : state) : state :=
  mkState (heap σ) (log σ) (f (files σ)) (world σ).
Definition with_world (w : World) (σ : state) : state :=
  mkState (heap σ) (log σ) (files σ) w.

(** ** The monad *)

Definition M (A : Type) : Type := state → outcome A * state.

Definition ret {A} (a : A) : M A := λ σ, (Ret a, σ).
Definition raise {A} (e : exn) : M A := λ σ, (Raise e, σ).
Definition bind {A B} (m : M A) (k : A → M B) : M B :=
  λ σ, match m σ with
       | (Ret a, σ') => k a σ'
       | (Raise e, σ') => (Raise e, σ')
       end.

Notation "x <- m ;; k" := (bind m (λ x, k))
  (at level 100, m at next level, right associativity,
   format "'[' x  <-  m  ;;  '/' k ']'").
Notation "m ;;; k" := (bind m (λ _, k))
  (at level 100, right associativity).

Fixpoint for_each {A} (f : A → M unit) (xs : list A) : M unit :=
  match xs with
  | [] => ret ()
  | x :: xs' => f x ;;; for_each f xs'
  end.

(** ** Store primitives *)

Definition alloc (o : obj R) : M loc :=
  λ σ, let l := fresh (dom (heap σ)) in (Ret l, with_heap (insert l o) σ).

Definition emit (e : event) : M unit :=
  λ σ, (Ret (), with_log (λ es, es ++ [e]) σ).

(** A call to a collaborator: the world moves on, a failure is raised. *)
Definition call {A} (f : World → answer A * World) : M A :=
  λ σ, match f (world σ) with
       | (Answer a, w) => (Ret a, with_world w σ)
       | (Fails s, w) => (Raise (ExternalError s), with_world w σ)
       end.

Definition read_tensor (l : loc) : M (list (list R)) :=
  λ σ, match heap σ !! l with
       | Some (OTensor t) => (Ret t, σ)
       | _ => (Raise RuntimeError, σ)
       end.

Definition read_frame (l : loc) : M (gmap string value) :=
  λ σ, match heap σ !! l with
       | Some (OFrame attrs) => (Ret attrs, σ)
       | _ => (Raise RuntimeError, σ)
       end.

(** [getattr(o, k)] and [setattr(o, k, v)] on a frame-data object. *)
Definition getattr (l : loc) (k : string) : M value :=
  attrs <- read_frame l ;;
  match attrs !! k with
  | Some v => ret v
  | None => raise (AttributeError k)
  end.

Definition setattr (l : loc) (k : string) (v : value) : M unit :=
  attrs <- read_frame l ;;
  λ σ, (Ret (), with_heap (insert l (OFrame (<[k:=v]> attrs))) σ).

(** ** Tensor operations *)

Definition mul_frame (x : list R) (k : R) : list R := (λ v, mul v k) <$> x.

(** [value * is_known] with [value] of shape (M,C,H,W) and [is_known] of
    shape (N,1,1,1): the batch dimensions M and N must agree or one of
    them be 1. *)
Definition broadcast_mul (value : list (list R)) (is_known : list R)
    : outcome (list (list R)) :=
  if decide (length value = length is_known) then
    Ret (zip_with mul_frame value is_known)
  else match is_known, value with
       | [k], _ => Ret ((λ x, mul_frame x k) <$> value)
       | _, [x] => Ret (mul_frame x <$> is_known)
       | _, _ => Raise RuntimeError
       end.

Definition lift {A} (o : outcome A) : M A := λ σ, (o, σ).

Definition tensor_clone (l : loc) : M loc :=
  t <- read_tensor l ;; alloc (OTensor t).

Definition tensor_mul (l : loc) (is_known : list R) : M loc :=
  t <- read_tensor l ;;
  t' <- lift (broadcast_mul t is_known) ;;
  alloc (OTensor t').

(** ** [copy.deepcopy] of a frame-data object

    Every tensor reachable from the object is copied once (the memo keeps
    sharing inside the copy); strings and integers are immutable. *)

Definition deepcopy_tensor (l : loc) (memo : gmap loc loc)
    : M (loc * gmap loc loc) :=
  match memo !! l with
  | Some l' => ret (l', memo)
  | None =>
      t <- read_tensor l ;;
      l' <- alloc (OTensor t) ;;
      ret (l', <[l:=l']> memo)
  end.

Definition deepcopy_value (v : value) (memo : gmap loc loc)
    : M (value * gmap loc loc) :=
  match v with
  | VTensor l =>
      r <- deepcopy_tensor l memo ;;
      ret (VTensor r.1, r.2)
  | _ => ret (v, memo)
  end.

Definition deepcopy_attrs (attrs : gmap string value)
    : M (gmap string value * gmap loc loc) :=
  map_fold
    (λ k v (acc : M (gmap string value * gmap loc loc)),
       st <- acc ;;
       r <- deepcopy_value v st.2 ;;
       ret (<[k:=r.1]> st.1, r.2))
    (ret (∅, ∅)) attrs.

Definition deepcopy (frame_data : loc) : M loc :=
  attrs <- read_frame frame_data ;;
  r <- deepcopy_attrs attrs ;;
  alloc (OFrame r.1).

(** ** [_get_eval_frame_data] (lines 152-164) *)

(** [ds_utils.is_known_frame]: one flag per entry of [frame_type]. *)
Definition is_known_frame (frame_type : value) : M (list bool) :=
  match frame_type with
  | VStrs ss => ret (is_known_frame_scalar <$> ss)
  | VStr s =>
      ret ((λ c, is_known_frame_scalar (String c EmptyString))
             <$> String.list_ascii_of_string s)
  | _ => raise TypeError
  end.

(** [flags.type_as(other)[:, None, None, None]]: [other] must be a tensor. *)
Definition type_as (flags : list bool) (other : value) : M (list R) :=
  match other with
  | VTensor l =>
      read_tensor l ;;;
      ret ((λ b : bool, if b then one else zero) <$> flags)
  | _ => raise TypeError
  end.

Definition masked_fields : list string :=
  ["image_rgb"; "depth_map"; "fg_probability"; "mask_crop"].

(** The body of the loop at lines 160-163. *)
Definition mask_field (frame_data_for_eval : loc) (is_known : list R)
    (k : string) : M unit :=
  value <- getattr frame_data_for_eval k ;;
  value_masked <-
    match value with
    | VNone => ret VNone
    | VTensor lv =>
        lc <- tensor_clone lv ;;
        lm <- tensor_mul lc is_known ;;
        ret (VTensor lm)
    | _ => raise (AttributeError "clone")
    end ;;
  setattr frame_data_for_eval k value_masked.

Definition _get_eval_frame_data (frame_data : loc) : M loc :=
  frame_data_for_eval <- deepcopy frame_data ;;
  frame_type <- getattr frame_data "frame_type" ;;
  flags <- is_known_frame frame_type ;;
  image_rgb <- getattr frame_data "image_rgb" ;;
  is_known <- type_as flags image_rgb ;;
  for_each (mask_field frame_data_for_eval is_known) masked_fields ;;;
  ret frame_data_for_eval.

(** ** Result records and [_dump_to_json] (lines 138-149) *)

Definition read_list (l : loc) : M (list loc) :=
  λ σ, match heap σ !! l with
       | Some (OList items) => (Ret items, σ)
       | _ => (Raise RuntimeError, σ)
       end.

Definition read_dict (l : loc) : M (gmap string (jvalue R)) :=
  λ σ, match heap σ !! l with
       | Some (ODict d) => (Ret d, σ)
       | _ => (Raise RuntimeError, σ)
       end.

(** [r[k] = v] on a dictionary object: an update in place. *)
Definition dict_setitem (r : loc) (k : string) (v : jvalue R) : M unit :=
  d <- read_dict r ;;
  λ σ, (Ret (), with_heap (insert r (ODict (<[k:=v]> d))) σ).

Fixpoint map_m {A B} (f : A → M B) (xs : list A) : M (list B) :=
  match xs with
  | [] => ret []
  | x :: xs' => y <- f x ;; ys <- map_m f xs' ;; ret (y :: ys)
  end.

(** What [json.dump] serializes: the records the list refers to. *)
Definition json_value (results : loc) : M (list (gmap string (jvalue R))) :=
  items <- read_list results ;;
  map_m read_dict items.

Definition write_file (path : string)
    (content : list (gmap string (jvalue R))) : M unit :=
  λ σ, (Ret (), with_files (insert path content) σ).

Definition ends_with_sep (a : string) : bool :=
  match last (String.list_ascii_of_string a) with
  | Some c => bool_decide (c = "/"%char)
  | None => false
  end.

(** [os.path.join(a, b)] on POSIX, two components. *)
Definition os_path_join (a b : string) : string :=
  if String.prefix "/" b then b
  else if bool_decide (a = "") || ends_with_sep a then a +:+ b
  else a +:+ "/" +:+ b.

(** [epoch] is an [Optional[int]], on which [int(epoch)] is the identity.
    The file is modelled by the records it holds once [json.dump] has
    written them; what a dump that fails between [open] and the end of the
    write leaves in the file is outside the model. *)
Definition _dump_to_json (epoch : option Z) (exp_dir : option string)
    (results : loc) : M unit :=
  match epoch with
  | Some e =>
      items <- read_list results ;;
      for_each (λ r, dict_setitem r "eval_epoch" (JInt e)) items
  | None => ret ()
  end ;;;
  emit (EvLogInfo "Evaluation results") ;;;
  match exp_dir with
  | None => raise config_error
  | Some d =>
      let path := os_path_join d "results_test.json" in
      call (open_for_writing path) ;;;
      content <- json_value results ;;
      emit (EvJsonDump path content) ;;;
      write_file path content
  end.

(** ** [ImplicitronEvaluator.run] (lines 64-135) *)

(** The two members of the class (lines 58-59); their defaults,
    [(0.97, 0.98)] and [False], are values an instance is built with. *)
Record ImplicitronEvaluator := {
  camera_difficulty_bin_breaks : list R;
  is_multisequence : bool
}.

Definition resolve_value (h : gmap loc (obj R)) (v : value)
    : option (rvalue R) :=
  match v with
  | VNone => Some RNone
  | VTensor l =>
      match h !! l with
      | Some (OTensor t) => Some (RTensor t)
      | _ => None
      end
  | VStrs ss => Some (RStrs ss)
  | VStr s => Some (RStr s)
  | VInt z => Some (RInt z)
  end.

(** The attributes of a frame-data object as a callee reads them. *)
Definition view (h : gmap loc (obj R)) (attrs : gmap string value)
    : gmap string (rvalue R) :=
  omap (resolve_value h) attrs.

Definition frame_view (l : loc) : M (gmap string (rvalue R)) :=
  attrs <- read_frame l ;;
  λ σ, (Ret (view (heap σ) attrs), σ).

(** [frame_data.to(device)]: a new frame-data object over the same
    attribute values. *)
Definition frame_to (frame_data : loc) (device : Device) : M loc :=
  attrs <- read_frame frame_data ;;
  alloc (OFrame attrs).

Definition getitem {A} (d : gmap string A) (k : string) : M A :=
  match d !! k with
  | Some a => ret a
  | None => raise (KeyError k)
  end.

(** The body of the loop, lines 99-122.  [torch.no_grad()] has no effect
    on the values; the render is a value that nothing else refers to, so
    its [copy.deepcopy] is the value itself.  In the keyword arguments the
    key [evaluation_mode] of the dictionary literal overrides an attribute
    of that name. *)
Definition run_batch (self : ImplicitronEvaluator)
    (all_train_cameras : option Cameras) (device : Device)
    (lpips_model : Lpips) (batch : loc) : M BatchResult :=
  frame_data <- frame_to batch device ;;
  frame_data_for_eval <- _get_eval_frame_data frame_data ;;
  kwargs <- frame_view frame_data_for_eval ;;
  let kwargs := delete "evaluation_mode" kwargs in
  emit (EvModelCall kwargs EVALUATION) ;;;
  preds <- call (model_forward kwargs EVALUATION) ;;
  implicitron_render <- getitem preds "implicitron_render" ;;
  let source_cameras :=
    if is_multisequence self then None else all_train_cameras in
  seen <- frame_view frame_data ;;
  emit (EvEvalBatch frame_data seen implicitron_render "black" lpips_model
          source_cameras) ;;;
  call (eval_batch seen implicitron_render "black" lpips_model source_cameras).

(** The loop of lines 96-122 over the batches of the dataloader, in its
    order ([tqdm] only reports progress). *)
Fixpoint eval_loop (self : ImplicitronEvaluator)
    (all_train_cameras : option Cameras) (device : Device)
    (lpips_model : Lpips) (dataloader : list loc)
    (per_batch_eval_results : list BatchResult) : M (list BatchResult) :=
  match dataloader with
  | [] => ret per_batch_eval_results
  | batch :: rest =>
      r <- run_batch self all_train_cameras device lpips_model batch ;;
      eval_loop self all_train_cameras device lpips_model rest
        (per_batch_eval_results ++ [r])
  end.

(** The records of [category_result["results"]] become dictionary objects
    of their own, held by one list object. *)
Definition alloc_records (records : list (gmap string (jvalue R))) : M loc :=
  items <- map_m (λ d, alloc (ODict d)) records ;;
  alloc (OList items).

(** Lines 91-131: everything up to the optional dump.  Returns
    [category_result] (its entries as objects) and [results]. *)
Definition run_to_results (self : ImplicitronEvaluator)
    (dataloader : list loc) (all_train_cameras : option Cameras)
    (device : Device) : M (gmap string loc * loc) :=
  emit (EvLpips "vgg" device) ;;;
  lpips_model <- call (lpips_LPIPS "vgg") ;;
  lpips_model <- call (lpips_to lpips_model device) ;;
  emit EvModelEval ;;;
  (λ σ, (Ret (), with_world (model_eval (world σ)) σ)) ;;;
  emit (EvLogInfo "Evaluating model ...") ;;;
  per_batch_eval_results <-
    eval_loop self all_train_cameras device lpips_model dataloader [] ;;
  emit (EvSummarize per_batch_eval_results (is_multisequence self)
          (camera_difficulty_bin_breaks self)) ;;;
  summary <- call (summarize_nvs_eval_results per_batch_eval_results
                     (is_multisequence self)
                     (camera_difficulty_bin_breaks self)) ;;
  records <- getitem summary "results" ;;
  results_obj <- alloc_records records ;;
  let category_result : gmap string loc := {["results" := results_obj]} in
  results <- getitem category_result "results" ;;
  shown <- json_value results ;;
  emit (EvPrettyPrint shown) ;;;
  call (pretty_print_nvs_metrics shown) ;;;
  ret (category_result, results).

(** Lines 132-135: the optional dump, then [category_result["results"]]. *)
Definition run (self : ImplicitronEvaluator) (dataloader : list loc)
    (all_train_cameras : option Cameras) (device : Device)
    (dump_to_json : bool) (exp_dir : option string) (epoch : option Z)
    : M loc :=
  st <- run_to_results self dataloader all_train_cameras device ;;
  (if dump_to_json then _dump_to_json epoch exp_dir st.2 else ret ()) ;;;
  getitem st.1 "results".

(** * Specification vocabulary *)

(** [wp m Q σ]: running [m] from [σ] ends in an outcome and a state that
    satisfy [Q].  Computations are functions, so this is total. *)
Definition wp {A} (m : M A) (Q : outcome A → state → Prop) (σ : state) : Prop :=
  Q (m σ).1 (m σ).2.

(** [ext σ σ']: every object of [σ] is in [σ'] unchanged; the log, the
    files and the outside world are the same. *)
Definition ext (σ σ' : state) : Prop :=
  heap σ ⊆ heap σ' ∧ log σ' = log σ ∧ files σ' = files σ ∧ world σ' = world σ.

(** Computations that only allocate. *)
Definition grows {A} (m : M A) : Prop := ∀ σ, wp m (λ _ σ', ext σ σ') σ.

(** [keeps σ0 m]: started in any state that extends [σ0], [m] ends in a
    state that extends [σ0]. *)
Definition keeps (σ0 : state) {A} (m : M A) : Prop :=
  ∀ σ, ext σ0 σ → wp m (λ _ σ', ext σ0 σ') σ.

(** Every tensor attribute refers to a tensor of the store. *)
Definition live_tensors (h : gmap loc (obj R)) (attrs : gmap string value) : Prop :=
  ∀ k l, attrs !! k = Some (VTensor l) → ∃ t, h !! l = Some (OTensor t).

(** [v'] is a copy, valid in [h'], of [v] in [h]: the same value, held for
    a tensor by an object that [h] did not have. *)
Definition copy_of (h h' : gmap loc (obj R)) (v v' : value) : Prop :=
  match v with
  | VTensor l =>
      ∃ l' t, v' = VTensor l' ∧ h !! l' = None ∧
              h !! l = Some (OTensor t) ∧ h' !! l' = Some (OTensor t)
  | _ => v' = v
  end.

Definition memo_ok (h h' : gmap loc (obj R)) (memo : gmap loc loc) : Prop :=
  ∀ l l', memo !! l = Some l' →
    h !! l' = None ∧ ∃ t, h !! l = Some (OTensor t) ∧ h' !! l' = Some (OTensor t).

Definition copied (h h' : gmap loc (obj R)) (attrs attrs' : gmap string value)
    : Prop :=
  ∀ k, match attrs !! k with
       | Some v => ∃ v', attrs' !! k = Some v' ∧ copy_of h h' v v'
       | None => attrs' !! k = None
       end.

(** [pres l1 σ σ']: apart from the object at [l1], what [σ] held is in
    [σ'] unchanged. *)
Definition pres (l1 : loc) (σ σ' : state) : Prop :=
  (∀ l o, l ≠ l1 → heap σ !! l = Some o → heap σ' !! l = Some o) ∧
  log σ' = log σ ∧ files σ' = files σ ∧ world σ' = world σ.

(** A field the loop can process: [None], or a tensor of the store whose
    batch dimension broadcasts against the flags. *)
Definition field_ok (h : gmap loc (obj R)) (ik : list R) (ov : option value)
    : Prop :=
  ov = Some VNone ∨
  ∃ lv t t', ov = Some (VTensor lv) ∧ h !! lv = Some (OTensor t) ∧
             broadcast_mul t ik = Ret t'.

(** [v'], valid in [h'], is the masked version of [v] in [h]. *)
Definition masked (h h' : gmap loc (obj R)) (ik : list R) (v v' : value)
    : Prop :=
  match v with
  | VNone => v' = VNone
  | VTensor lv =>
      ∃ lm t t', v' = VTensor lm ∧ h !! lv = Some (OTensor t) ∧
                 broadcast_mul t ik = Ret t' ∧ h' !! lm = Some (OTensor t')
  | _ => False
  end.

(** [is_known] of line 157: one scalar per entry of [frame_type]. *)
Definition known_flags (ss : list string) : list R :=
  (λ b : bool, if b then one else zero) <$> (is_known_frame_scalar <$> ss).

(** A batch the function accepts: a frame-data object whose tensors are in
    the store, whose [frame_type] is a list of strings, whose [image_rgb]
    is a tensor, and whose four fields are [None] or broadcast against the
    flags. *)
Record batch_ok (σ : state) (l : loc) (attrs : gmap string value)
    (ss : list string) : Prop := {
  ok_frame : heap σ !! l = Some (OFrame attrs);
  ok_live : live_tensors (heap σ) attrs;
  ok_frame_type : attrs !! "frame_type" = Some (VStrs ss);
  ok_image : ∃ li, attrs !! "image_rgb" = Some (VTensor li);
  ok_fields : ∀ k, k ∈ masked_fields →
                   field_ok (heap σ) (known_flags ss) (attrs !! k)
}.

(** The returned object, field by field. *)
Definition eval_copy (σ σ' : state) (ss : list string)
    (attrs fin : gmap string value) : Prop :=
  ∀ k, match attrs !! k with
       | None => fin !! k = None
       | Some v =>
           ∃ v', fin !! k = Some v' ∧
                 if bool_decide (k ∈ masked_fields)
                 then masked (heap σ) (heap σ') (known_flags ss) v v'
                 else copy_of (heap σ) (heap σ') v v'
       end.

(** ** Vocabulary of the masking properties *)

(** Field [k] of the frame-data object with attributes [attrs] holds the
    tensor [t]. *)
Definition field_tensor (σ : state) (attrs : gmap string value) (k : string)
    (t : list (list R)) : Prop :=
  ∃ l, attrs !! k = Some (VTensor l) ∧ heap σ !! l = Some (OTensor t).

(** Entries that multiplication by the flags treats exactly: times zero is
    zero and times one is the entry (integers, finite floating-point
    numbers). *)
Definition plain (t : list (list R)) : Prop :=
  ∀ row x, row ∈ t → x ∈ row → mul x zero = zero ∧ mul x one = x.

Definition zeros (row : list R) : list R := (λ _, zero) <$> row.

(** A batch as the dataloader collates it: [batch_ok], with one frame per
    entry of [frame_type] in each of the four fields that is present. *)
Record batch_shaped (σ : state) (l : loc) (attrs : gmap string value)
    (ss : list string) : Prop := {
  shaped_frame : heap σ !! l = Some (OFrame attrs);
  shaped_live : live_tensors (heap σ) attrs;
  shaped_frame_type : attrs !! "frame_type" = Some (VStrs ss);
  shaped_image : ∃ t, field_tensor σ attrs "image_rgb" t;
  shaped_fields : ∀ k, k ∈ masked_fields →
    attrs !! k = Some VNone ∨
    ∃ t, field_tensor σ attrs k t ∧ length t = length ss
}.

(** [v'] in [σ'] reads as [v] does in [σ]: both resolve, to one value. *)
Definition same_value (σ σ' : state) (v v' : value) : Prop :=
  ∃ rv, resolve_value (heap σ) v = Some rv ∧
        resolve_value (heap σ') v' = Some rv.

(** ** Vocabulary of the evaluation loop *)

(** The masking, on what a callee reads. *)
Definition mask_rvalue (ik : list R) (rv : rvalue R) : option (rvalue R) :=
  match rv with
  | RNone => Some RNone
  | RTensor t =>
      match broadcast_mul t ik with
      | Ret t' => Some (RTensor t')
      | Raise _ => None
      end
  | _ => None
  end.

Definition masked_view (ik : list R) (v : gmap string (rvalue R))
    : gmap string (rvalue R) :=
  map_imap (λ k rv, if bool_decide (k ∈ masked_fields)
                    then mask_rvalue ik rv else Some rv) v.

(** The two calls of one iteration on batch [l], as read in [σ]: the model
    on the masked attributes, then [eval_batch] on the attributes of the
    batch itself. *)
Definition batch_calls (σ : state) (self : ImplicitronEvaluator)
    (all_train_cameras : option Cameras) (lpips_model : Lpips)
    (l : loc) (es : list event) : Prop :=
  ∃ attrs ss f r,
    heap σ !! l = Some (OFrame attrs) ∧
    attrs !! "frame_type" = Some (VStrs ss) ∧
    es = [EvModelCall
            (delete "evaluation_mode"
               (masked_view (known_flags ss) (view (heap σ) attrs)))
            EVALUATION;
          EvEvalBatch f (view (heap σ) attrs) r "black" lpips_model
            (if is_multisequence self then None else all_train_cameras)].

(** [emits P m]: [m] appends events to the log, all of them in [P]. *)
Definition emits (P : event → Prop) {A} (m : M A) : Prop :=
  ∀ σ, wp m (λ _ σ', ∃ es, log σ' = log σ ++ es ∧ Forall P es) σ.

(** The [source_cameras] argument the evaluator is to pass. *)
Definition source_cameras_ok (self : ImplicitronEvaluator)
    (all_train_cameras : option Cameras) (e : event) : Prop :=
  match e with
  | EvEvalBatch _ _ _ _ _ src =>
      src = if is_multisequence self then None else all_train_cameras
  | _ => True
  end.

(** ** Vocabulary of the dump *)

(** [may_raise E m]: an exception that [m] raises is in [E]. *)
Definition may_raise (E : exn → Prop) {A} (m : M A) : Prop :=
  ∀ σ e, (m σ).1 = Raise e → E e.

Definition not_config (e : exn) : Prop := e ≠ config_error.

(** The list object [res] holds the records [ds], each in a dictionary
    object of the store. *)
Definition records_at (h : gmap loc (obj R)) (res : loc)
    (ds : list (gmap string (jvalue R))) : Prop :=
  ∃ items, h !! res = Some (OList items) ∧
           Forall2 (λ r d, h !! r = Some (ODict d)) items ds.

(** The records after the tagging of lines 141-143. *)
Definition tagged (epoch : option Z) (ds : list (gmap string (jvalue R)))
    : list (gmap string (jvalue R)) :=
  match epoch with
  | Some e => insert "eval_epoch" (JInt e) <$> ds
  | None => ds
  end.

(** ** Vocabulary of the further properties *)

(** [fresh_copy σ0 l1 σ]: [σ] extends [σ0], and [l1] holds a frame-data
    object none of whose tensors is an object of [σ0]. *)
Definition fresh_copy (σ0 : state) (l1 : loc) (σ : state) : Prop :=
  ext σ0 σ ∧
  ∃ cur, heap σ !! l1 = Some (OFrame cur) ∧
         ∀ k lv, cur !! k = Some (VTensor lv) → heap σ0 !! lv = None.

(** [stable f m]: [m] leaves the component [f] of the state as it is. *)
Definition stable {X} (f : state → X) {A} (m : M A) : Prop :=
  ∀ σ, f (m σ).2 = f σ.

(** What the tagging of lines 141-143 does to the store: nothing without
    an epoch; with one, it writes the field into the records of the list
    and leaves every other object as it is. *)
Definition tagged_store (epoch : option Z) (res : loc) (σ σ' : state) : Prop :=
  match epoch with
  | None => heap σ' = heap σ
  | Some e =>
      ∃ items, heap σ !! res = Some (OList items) ∧
        (∀ l, l ∉ items → heap σ' !! l = heap σ !! l) ∧
        (∀ r d, r ∈ items → heap σ !! r = Some (ODict d) →
                heap σ' !! r = Some (ODict (<["eval_epoch" := JInt e]> d)))
  end.

(** ** Vocabulary of the call log *)

Definition is_ret {A} (o : outcome A) : bool :=
  match o with Ret _ => true | Raise _ => false end.

Definition is_model_call (e : event) : bool :=
  match e with EvModelCall _ _ => true | _ => false end.

Definition is_eval_batch_call (e : event) : bool :=
  match e with EvEvalBatch _ _ _ _ _ _ => true | _ => false end.

(** How many events of a log satisfy [p]. *)
Definition calls (p : event → bool) (es : list event) : nat :=
  length (List.filter p es).

(** What the loop logs over [n] batches: calls of the model and of
    [eval_batch] only, never more of the second than of the first nor more
    of the first than batches, and one of each per batch when the loop
    completed. *)
Definition loop_log (n : nat) (completed : bool) (es : list event) : Prop :=
  Forall (λ e, is_model_call e || is_eval_batch_call e = true) es ∧
  (calls is_eval_batch_call es ≤ calls is_model_call es)%nat ∧
  (calls is_model_call es ≤ n)%nat ∧
  (completed = true →
   calls is_model_call es = n ∧ calls is_eval_batch_call es = n).

(** What lines 91-131 log: the LPIPS set-up; then the switch of the model
    to inference mode, the log line and the calls of the loop; then, when
    the loop completed, the call of the summarizer on one result per batch
    and, when the summary has results, the pretty-printing. *)
Definition run_log (self : ImplicitronEvaluator) (n : nat)
    (device : Device) (returned : bool) (es : list event) : Prop :=
  (returned = false ∧ es = [EvLpips "vgg" device]) ∨
  (returned = false ∧ ∃ es_loop,
     loop_log n false es_loop ∧
     es = [EvLpips "vgg" device; EvModelEval;
           EvLogInfo "Evaluating model ..."] ++ es_loop) ∨
  (∃ es_loop per_batch rest,
     loop_log n true es_loop ∧ length per_batch = n ∧
     es = [EvLpips "vgg" device; EvModelEval;
           EvLogInfo "Evaluating model ..."] ++ es_loop ++
          EvSummarize per_batch (is_multisequence self)
            (camera_difficulty_bin_breaks self) :: rest ∧
     ((returned = false ∧ rest = []) ∨ ∃ shown, rest = [EvPrettyPrint shown])).

(** [logs P σ σ']: the log of [σ'] is the log of [σ] followed by events
    that are all in [P]. *)
Definition logs (P : event → Prop) (σ σ' : state) : Prop :=
  ∃ es, log σ' = log σ ++ es ∧ Forall P es.

(** A call of the model, as it must be over the batches [dl] read in [σ0]:
    in evaluation mode and on the masked attributes of one of them. *)
Definition masked_calls (σ0 : state) (dl : list loc) (e : event) : Prop :=
  match e with
  | EvModelCall kw mode =>
      mode = EVALUATION ∧
      ∃ l attrs ss,
        l ∈ dl ∧ heap σ0 !! l = Some (OFrame attrs) ∧
        attrs !! "frame_type" = Some (VStrs ss) ∧
        batch_ok σ0 l attrs ss ∧
        kw = delete "evaluation_mode"
               (masked_view (known_flags ss) (view (heap σ0) attrs))
  | _ => True
  end.

End Evaluator.

(** * A concrete setting

    Integer tensors and collaborators that count their calls, to run the
    model on explicit batches. *)

(** A stand-in for [ds_utils.is_known_frame] on one frame type: the type
    ends in "known". *)
Definition demo_is_known (s : string) : bool :=
  bool_decide (String.substring (String.length s - 5) 5 s = "known").

Definition demo_forward (fails : bool) (kwargs : gmap string (rvalue Z))
    (mode : EvaluationMode) (w : nat) : answer (gmap string Z) * nat :=
  if fails then (Fails "RuntimeError", S w)
  else (Answer {["implicitron_render" := 7]}, S w).

(** The collaborators; [fails] makes the model raise on every call. *)
Definition demo_collaborators (fails : bool) : Collaborators Z := {|
  World := nat;
  Device := unit;
  Cameras := nat;
  Render := Z;
  Lpips := unit;
  BatchResult := Z;
  is_known_frame_scalar := demo_is_known;
  lpips_LPIPS := λ _ w, (Answer (), S w);
  lpips_to := λ lp _ w, (Answer lp, S w);
  model_eval := λ w, w;
  model_forward := demo_forward fails;
  eval_batch := λ _ render _ _ _ w, (Answer render, S w);
  summarize_nvs_eval_results := λ _ _ _ w,
    (Answer {["results" := [ {["psnr" := JInt 3]}; {["lpips" := JInt 4]} ]]}, S w);
  pretty_print_nvs_metrics := λ _ w, (Answer (), S w);
  open_for_writing := λ _ w, (Answer (), S w)
|}.

#[export] Instance demo : Collaborators Z := demo_collaborators false.

Definition demo_frame_type : list string := ["train_known"; "test_unseen"].

(** A batch of two frames, the second unknown, without depth or crop mask. *)
Definition demo_attrs : gmap string value :=
  <["image_rgb" := VTensor 1%nat]>
  (<["depth_map" := VNone]>
  (<["fg_probability" := VTensor 2%nat]>
  (<["mask_crop" := VNone]>
  (<["frame_type" := VStrs demo_frame_type]>
  (<["sequence_name" := VStr "apple_1"]> ∅))))).

Definition demo_heap : gmap loc (obj Z) :=
  <[0%nat := OFrame demo_attrs]>
  (<[1%nat := OTensor [[1; 2; 3]; [4; 5; 6]]]>
  (<[2%nat := OTensor [[1]; [1]]]> ∅)).

Definition demo_state : state := mkState demo_heap [] ∅ 0%nat.

(** The same store, before collaborators whose model raises. *)
Definition failing_state : @state Z (demo_collaborators true) :=
  @mkState Z (demo_collaborators true) demo_heap [] ∅ 0%nat.

Definition demo_self : @ImplicitronEvaluator Z :=
  {| camera_difficulty_bin_breaks := [97; 98]; is_multisequence := false |}.

(** The same batch without an image. *)
Definition blind_attrs : gmap string value :=
  <["image_rgb" := VNone]> demo_attrs.

Definition blind_state : state :=
  mkState (<[0%nat := OFrame blind_attrs]> demo_heap) [] ∅ 0%nat.

(** A batch of known frames only. *)
Definition known_attrs : gmap string value :=
  <["frame_type" := VStrs ["train_known"; "test_known"]]> demo_attrs.

Definition known_state : state :=
  mkState (<[0%nat := OFrame known_attrs]> demo_heap) [] ∅ 0%nat.

(** A batch whose image has three frames for two frame types. *)
Definition ragged_state : state :=
  mkState (<[1%nat := OTensor [[1]; [2]; [3]]]> demo_heap) [] ∅ 0%nat.

(** A frame-data object without a [frame_type] attribute. *)
Definition untyped_state : state :=
  mkState (<[0%nat := OFrame (delete "frame_type" demo_attrs)]> demo_heap)
    [] ∅ 0%nat.

(** Two result records held by the list object at location 2; the first
    already carries an epoch. *)
Definition records_heap : gmap loc (obj Z) :=
  <[0%nat := ODict (<["eval_epoch" := JInt 1]> {["psnr" := JInt 3]})]>
  (<[1%nat := ODict {["lpips" := JInt 4]}]>
  (<[2%nat := OList [0%nat; 1%nat]]>
  (<[3%nat := OTensor [[1; 2]]]> ∅))).

Definition records_state : state := mkState records_heap [] ∅ 0%nat.

Definition demo_records : list (gmap string (jvalue Z)) :=
  [<["eval_epoch" := JInt 1]> {["psnr" := JInt 3]}; {["lpips" := JInt 4]}].

(** Collaborators under which no file opens. *)
Definition closed_collaborators : Collaborators Z := {|
  World := nat;
  Device := unit;
  Cameras := nat;
  Render := Z;
  Lpips := unit;
  BatchResult := Z;
  is_known_frame_scalar := demo_is_known;
  lpips_LPIPS := λ _ w, (Answer (), S w);
  lpips_to := λ lp _ w, (Answer lp, S w);
  model_eval := λ w, w;
  model_forward := demo_forward false;
  eval_batch := λ _ render _ _ _ w, (Answer render, S w);
  summarize_nvs_eval_results := λ _ _ _ w,
    (Answer {["results" := [ {["psnr" := JInt 3]}; {["lpips" := JInt 4]} ]]}, S w);
  pretty_print_nvs_metrics := λ _ w, (Answer (), S w);
  open_for_writing := λ _ w, (Fails "FileNotFoundError", S w)
|}.

Definition closed_state : @state Z closed_collaborators :=
  @mkState Z closed_collaborators records_heap [] ∅ 0%nat.

(** Finite values and a not-a-number, which multiplication propagates as
    IEEE 754 arithmetic does. *)
Inductive fnum := Finite (z : Z) | NaN.

Definition fnum_mul (x y : fnum) : fnum :=
  match x, y with
  | Finite a, Finite b => Finite (a * b)
  | _, _ => NaN
  end.

Definition fnum_Scalar : Scalar fnum :=
  {| mul := fnum_mul; zero := Finite 0; one := Finite 1 |}.

Definition fnum_collaborators : @Collaborators fnum := {|
  World := nat;
  Device := unit;
  Cameras := nat;
  Render := Z;
  Lpips := unit;
  BatchResult := Z;
  is_known_frame_scalar := demo_is_known;
  lpips_LPIPS := λ _ w, (Answer (), S w);
  lpips_to := λ lp _ w, (Answer lp, S w);
  model_eval := λ w, w;
  model_forward := λ _ _ w, (Answer {["implicitron_render" := 7]}, S w);
  eval_batch := λ _ render _ _ _ w, (Answer render, S w);
  summarize_nvs_eval_results := λ _ _ _ w, (Answer ∅, S w);
  pretty_print_nvs_metrics := λ _ w, (Answer (), S w);
  open_for_writing := λ _ w, (Answer (), S w)
|}.

(** A batch of two frames, the second unknown and holding a not-a-number. *)
Definition nan_attrs : gmap string value :=
  <["image_rgb" := VTensor 1%nat]>
  (<["depth_map" := VNone]>
  (<["fg_probability" := VNone]>
  (<["mask_crop" := VNone]>
  (<["frame_type" := VStrs demo_frame_type]> ∅)))).

Definition nan_heap : gmap loc (obj fnum) :=
  <[0%nat := OFrame nan_attrs]>
  (<[1%nat := OTensor [[Finite 1]; [NaN]]]> ∅).

Definition nan_state : @state fnum fnum_collaborators :=
  @mkState fnum fnum_collaborators nan_heap [] ∅ 0%nat.

Notation "x <- m ;; k" := (bind m (λ x, k))
  (at level 100, m at next level, right associativity,
   format "'[' x  <-  m  ;;  '/' k ']'").
Notation "m ;;; k" := (bind m (λ _, k))
  (at level 100, right associativity).

(** * Reasoning about the monad *)

Section EvaluatorProofs.

Context {R : Type} `{!Scalar R} `{!Collaborators R}.

Lemma wp_run {A} (m : M A) Q σ o σ' :
  wp m Q σ → m σ = (o, σ') → Q o σ'.
Proof. unfold wp. intros HQ E. by rewrite E in HQ. Qed.

Lemma wp_mono {A} (m : M A) (Q Q' : outcome A → state → Prop) σ :
  wp m Q σ → (∀ o σ', Q o σ' → Q' o σ') → wp m Q' σ.
Proof. unfold wp. auto. Qed.

Lemma wp_ret {A} (a : A) (Q : outcome A → state → Prop) σ :
  Q (Ret a) σ → wp (ret a) Q σ.
Proof. done. Qed.

Lemma wp_raise {A} e (Q : outcome A → state → Prop) σ :
  Q (Raise e) σ → wp (raise e) Q σ.
Proof. done. Qed.

Lemma wp_lift {A} (o : outcome A) (Q : outcome A → state → Prop) σ :
  Q o σ → wp (lift o) Q σ.
Proof. done. Qed.

Lemma wp_bind {A B} (m : M A) (k : A → M B) (Q : outcome B → state → Prop) σ :
  wp m (λ o σ1, match o with
                | Ret a => wp (k a) Q σ1
                | Raise e => Q (Raise e) σ1
                end) σ →
  wp (bind m k) Q σ.
Proof. unfold wp, bind. by destruct (m σ) as [[a|e] σ1]. Qed.

Lemma wp_alloc o (Q : outcome loc → state → Prop) σ :
  (∀ l, heap σ !! l = None → Q (Ret l) (with_heap (insert l o) σ)) →
  wp (alloc o) Q σ.
Proof.
  intros HQ. unfold wp, alloc. simpl. apply HQ.
  apply not_elem_of_dom, is_fresh.
Qed.

Lemma wp_emit e (Q : outcome unit → state → Prop) σ :
  Q (Ret ()) (with_log (λ es, es ++ [e]) σ) → wp (emit e) Q σ.
Proof. done. Qed.

Lemma wp_call {A} (f : World → answer A * World) (Q : outcome A → state → Prop) σ :
  (∀ a w, f (world σ) = (Answer a, w) → Q (Ret a) (with_world w σ)) →
  (∀ s w, f (world σ) = (Fails s, w) →
          Q (Raise (ExternalError s)) (with_world w σ)) →
  wp (call f) Q σ.
Proof.
  intros Ha Hf. unfold wp, call.
  destruct (f (world σ)) as [[a|s] w] eqn:E; simpl; auto.
Qed.

Lemma wp_read_tensor l (Q : outcome (list (list R)) → state → Prop) σ :
  (∀ t, heap σ !! l = Some (OTensor t) → Q (Ret t) σ) →
  ((∀ t, heap σ !! l ≠ Some (OTensor t)) → Q (Raise RuntimeError) σ) →
  wp (read_tensor l) Q σ.
Proof.
  intros Hok Hbad. unfold wp, read_tensor.
  destruct (heap σ !! l) as [[]|] eqn:E; simpl; auto.
Qed.

Lemma wp_read_frame l (Q : outcome (gmap string value) → state → Prop) σ :
  (∀ a, heap σ !! l = Some (OFrame a) → Q (Ret a) σ) →
  ((∀ a, heap σ !! l ≠ Some (OFrame a)) → Q (Raise RuntimeError) σ) →
  wp (read_frame l) Q σ.
Proof.
  intros Hok Hbad. unfold wp, read_frame.
  destruct (heap σ !! l) as [[]|] eqn:E; simpl; auto.
Qed.

Lemma wp_read_list l (Q : outcome (list loc) → state → Prop) σ :
  (∀ a, heap σ !! l = Some (OList a) → Q (Ret a) σ) →
  ((∀ a, heap σ !! l ≠ Some (OList a)) → Q (Raise RuntimeError) σ) →
  wp (read_list l) Q σ.
Proof.
  intros Hok Hbad. unfold wp, read_list.
  destruct (heap σ !! l) as [[]|] eqn:E; simpl; auto.
Qed.

Lemma wp_read_dict l (Q : outcome (gmap string (jvalue R)) → state → Prop) σ :
  (∀ a, heap σ !! l = Some (ODict a) → Q (Ret a) σ) →
  ((∀ a, heap σ !! l ≠ Some (ODict a)) → Q (Raise RuntimeError) σ) →
  wp (read_dict l) Q σ.
Proof.
  intros Hok Hbad. unfold wp, read_dict.
  destruct (heap σ !! l) as [[]|] eqn:E; simpl; auto.
Qed.

(** ** States that only gained objects *)

Lemma ext_refl σ : ext σ σ.
Proof. by repeat split. Qed.

Lemma ext_trans σ1 σ2 σ3 : ext σ1 σ2 → ext σ2 σ3 → ext σ1 σ3.
Proof.
  intros (?&?&?&?) (?&?&?&?). repeat split; [by etrans|congruence..].
Qed.

Lemma ext_alloc σ l o : heap σ !! l = None → ext σ (with_heap (insert l o) σ).
Proof. intros. repeat split. simpl. by apply insert_subseteq. Qed.

Lemma ext_lookup σ σ' l o : ext σ σ' → heap σ !! l = Some o → heap σ' !! l = Some o.
Proof. intros [Hsub _] Hl. by eapply lookup_weaken. Qed.

Lemma ext_fresh σ σ' l : ext σ σ' → heap σ' !! l = None → heap σ !! l = None.
Proof.
  intros [Hsub _] Hl. destruct (heap σ !! l) eqn:E; [|done].
  eapply lookup_weaken in E; [|done]. congruence.
Qed.

(** Overwriting an object that [σ] did not have keeps [ext σ]. *)
Lemma ext_store σ σ' l o :
  ext σ σ' → heap σ !! l = None → ext σ (with_heap (insert l o) σ').
Proof.
  intros (Hsub&?&?&?) Hl. repeat split; simpl; try done.
  apply map_subseteq_spec. intros i x Hi.
  assert (i ≠ l) by congruence.
  rewrite lookup_insert_ne; [|done]. by eapply lookup_weaken.
Qed.

Lemma grows_ret {A} (a : A) : grows (ret a).
Proof. intros σ. apply ext_refl. Qed.

Lemma grows_raise {A} e : grows (raise e : M A).
Proof. intros σ. apply ext_refl. Qed.

Lemma grows_lift {A} (o : outcome A) : grows (lift o).
Proof. intros σ. apply ext_refl. Qed.

Lemma grows_bind {A B} (m : M A) (k : A → M B) :
  grows m → (∀ a, grows (k a)) → grows (bind m k).
Proof.
  intros Hm Hk σ. apply wp_bind. eapply wp_mono; [apply Hm|].
  intros [a|e] σ1 H1; simpl; [|done].
  eapply wp_mono; [apply Hk|]. intros o2 σ2 H2. by eapply ext_trans.
Qed.

Lemma grows_alloc o : grows (alloc o).
Proof. intros σ. apply wp_alloc. intros l Hl. by apply ext_alloc. Qed.

Lemma grows_read_tensor l : grows (read_tensor l).
Proof. intros σ. apply wp_read_tensor; intros; apply ext_refl. Qed.

Lemma grows_read_frame l : grows (read_frame l).
Proof. intros σ. apply wp_read_frame; intros; apply ext_refl. Qed.

Lemma grows_read_list l : grows (read_list l).
Proof. intros σ. apply wp_read_list; intros; apply ext_refl. Qed.

Lemma grows_read_dict l : grows (read_dict l).
Proof. intros σ. apply wp_read_dict; intros; apply ext_refl. Qed.

Create HintDb grows discriminated.
#[local] Hint Resolve grows_ret grows_raise grows_lift grows_alloc
  grows_read_tensor grows_read_frame grows_read_list grows_read_dict : grows.

Ltac grows_tac :=
  repeat first
    [ apply grows_bind; [|intros ?]
    | progress eauto with grows
    | match goal with |- grows (match ?x with _ => _ end) => destruct x end ].

Lemma grows_getattr l k : grows (getattr l k).
Proof. unfold getattr. grows_tac. Qed.

Lemma grows_tensor_clone l : grows (tensor_clone l).
Proof. unfold tensor_clone. grows_tac. Qed.

Lemma grows_tensor_mul l ik : grows (tensor_mul l ik).
Proof. unfold tensor_mul. grows_tac. Qed.

Lemma grows_deepcopy_value v memo : grows (deepcopy_value v memo).
Proof. unfold deepcopy_value, deepcopy_tensor. grows_tac. Qed.

Lemma grows_deepcopy_attrs attrs : grows (deepcopy_attrs attrs).
Proof.
  unfold deepcopy_attrs.
  apply (map_fold_weak_ind (λ r _, grows r)); [apply grows_ret|].
  intros k v m r _ IH. apply grows_bind; [done|]. intros st.
  apply grows_bind; [apply grows_deepcopy_value|]. intros; apply grows_ret.
Qed.

Lemma grows_deepcopy l : grows (deepcopy l).
Proof.
  unfold deepcopy.
  apply grows_bind; [apply grows_read_frame|]. intros a.
  apply grows_bind; [apply grows_deepcopy_attrs|]. intros; apply grows_alloc.
Qed.

Lemma grows_is_known_frame v : grows (is_known_frame v).
Proof. unfold is_known_frame. grows_tac. Qed.

Lemma grows_type_as flags v : grows (type_as flags v).
Proof. unfold type_as. grows_tac. Qed.

Lemma grows_frame_to l d : grows (frame_to l d).
Proof. unfold frame_to. grows_tac. Qed.

#[local] Hint Resolve grows_getattr grows_tensor_clone grows_tensor_mul
  grows_deepcopy grows_is_known_frame grows_type_as grows_frame_to : grows.

(** ** The input of [_get_eval_frame_data] is not written to *)

Lemma keeps_grows σ0 {A} (m : M A) : grows m → keeps σ0 m.
Proof.
  intros Hm σ H0. eapply wp_mono; [apply Hm|].
  intros o σ' H1. by eapply ext_trans.
Qed.

Lemma keeps_bind σ0 {A B} (m : M A) (k : A → M B) :
  keeps σ0 m → (∀ a, keeps σ0 (k a)) → keeps σ0 (bind m k).
Proof.
  intros Hm Hk σ H0. apply wp_bind. eapply wp_mono; [by apply Hm|].
  intros [a|e] σ1 H1; simpl; [|done]. by apply Hk.
Qed.

Lemma keeps_setattr σ0 l k v : heap σ0 !! l = None → keeps σ0 (setattr l k v).
Proof.
  intros Hl σ H0. unfold setattr. apply wp_bind, wp_read_frame; [|done].
  intros a _. unfold wp. simpl. by apply ext_store.
Qed.

Lemma keeps_for_each σ0 {A} (f : A → M unit) xs :
  (∀ x, keeps σ0 (f x)) → keeps σ0 (for_each f xs).
Proof.
  intros Hf. induction xs as [|x xs IH]; simpl.
  - apply keeps_grows, grows_ret.
  - apply keeps_bind; [apply Hf|]. by intros _.
Qed.

Lemma keeps_mask_field σ0 l ik k :
  heap σ0 !! l = None → keeps σ0 (mask_field l ik k).
Proof.
  intros Hl. unfold mask_field.
  apply keeps_bind; [apply keeps_grows, grows_getattr|]. intros v.
  apply keeps_bind; [|intros; by apply keeps_setattr].
  apply keeps_grows. destruct v; grows_tac.
Qed.

(** The copy is a new object. *)
Lemma deepcopy_fresh l σ :
  wp (deepcopy l)
     (λ o σ1, ext σ σ1 ∧ ∀ l1, o = Ret l1 → heap σ !! l1 = None) σ.
Proof.
  unfold deepcopy. apply wp_bind, wp_read_frame; [|split; [apply ext_refl|done]].
  intros a _. apply wp_bind. eapply wp_mono; [apply grows_deepcopy_attrs|].
  intros [r|e] σ1 H1; simpl; [|split; [done|done]].
  apply wp_alloc. intros l1 Hl1. split.
  - eapply ext_trans; [done|]. by apply ext_alloc.
  - intros ? [= <-]. by eapply ext_fresh.
Qed.

Lemma grows_get_eval_frame_data l : grows (_get_eval_frame_data l).
Proof.
  intros σ. unfold _get_eval_frame_data. apply wp_bind.
  eapply wp_mono; [apply deepcopy_fresh|].
  intros [l1|e] σ1 [H1 Hl1]; simpl; [|done].
  specialize (Hl1 _ eq_refl).
  revert σ1 H1.
  change (keeps σ
    (frame_type <- getattr l "frame_type" ;;
     flags <- is_known_frame frame_type ;;
     image_rgb <- getattr l "image_rgb" ;;
     is_known <- type_as flags image_rgb ;;
     for_each (mask_field l1 is_known) masked_fields ;;;
     ret l1)).
  apply keeps_bind; [apply keeps_grows, grows_getattr|]. intros ft.
  apply keeps_bind; [apply keeps_grows, grows_is_known_frame|]. intros flags.
  apply keeps_bind; [apply keeps_grows, grows_getattr|]. intros img.
  apply keeps_bind; [apply keeps_grows, grows_type_as|]. intros ik.
  apply keeps_bind; [|intros; apply keeps_grows, grows_ret].
  apply keeps_for_each. intros k. by apply keeps_mask_field.
Qed.

(** ** What [copy.deepcopy] returns *)

Lemma copy_of_mono h σ1 σ2 v v' :
  ext σ1 σ2 → copy_of h (heap σ1) v v' → copy_of h (heap σ2) v v'.
Proof.
  intros H12. destruct v; simpl; try done.
  intros (l'&t&?&?&?&?). exists l', t. repeat split; try done.
  by eapply ext_lookup.
Qed.

Lemma memo_ok_mono h σ1 σ2 memo :
  ext σ1 σ2 → memo_ok h (heap σ1) memo → memo_ok h (heap σ2) memo.
Proof.
  intros H12 Hm l l' Hl. destruct (Hm l l' Hl) as (?&t&?&?).
  split; [done|]. exists t. split; [done|]. by eapply ext_lookup.
Qed.

Lemma copied_mono h σ1 σ2 attrs attrs' :
  ext σ1 σ2 → copied h (heap σ1) attrs attrs' → copied h (heap σ2) attrs attrs'.
Proof.
  intros H12 Hc k. specialize (Hc k). destruct (attrs !! k); [|done].
  destruct Hc as (v'&?&?). exists v'. split; [done|]. by eapply copy_of_mono.
Qed.

Lemma deepcopy_value_spec σ σ1 v memo :
  ext σ σ1 → memo_ok (heap σ) (heap σ1) memo →
  (∀ l, v = VTensor l → ∃ t, heap σ !! l = Some (OTensor t)) →
  wp (deepcopy_value v memo)
     (λ o σ2, ext σ1 σ2 ∧ ∃ v' memo',
        o = Ret (v', memo') ∧ memo_ok (heap σ) (heap σ2) memo' ∧
        copy_of (heap σ) (heap σ2) v v') σ1.
Proof.
  intros H01 Hmemo Hlive.
  destruct v as [|l| | |];
    try (apply wp_ret; split; [apply ext_refl|]; by eexists _, _).
  destruct (Hlive l eq_refl) as [t Ht].
  unfold deepcopy_value, deepcopy_tensor. apply wp_bind.
  destruct (memo !! l) as [l'|] eqn:E.
  - apply wp_ret. simpl. apply wp_ret. split; [apply ext_refl|].
    destruct (Hmemo l l' E) as (Hn&t'&Ht'&Hl').
    eexists _, _. split; [done|]. split; [done|]. simpl. by exists l', t'.
  - apply wp_bind, wp_read_tensor.
    2:{ intros Hbad. exfalso. eapply Hbad, ext_lookup; done. }
    intros t0 Ht0. assert (t0 = t) as ->.
    { eapply ext_lookup in Ht; [|done]. congruence. }
    apply wp_bind, wp_alloc. intros l' Hl'. apply wp_ret. simpl. apply wp_ret.
    split; [by apply ext_alloc|].
    assert (heap σ !! l' = None) as Hn by by eapply ext_fresh.
    eexists _, _. split; [done|]. split.
    + intros l0 l0' H0. simpl.
      destruct (decide (l0 = l)) as [->|Hne].
      * rewrite lookup_insert_eq in H0. injection H0 as <-.
        split; [done|]. exists t. by rewrite lookup_insert_eq.
      * rewrite lookup_insert_ne in H0; [|done].
        destruct (Hmemo l0 l0' H0) as (?&t1&?&H1). split; [done|].
        exists t1. split; [done|].
        rewrite lookup_insert_ne; [done|]. congruence.
    + simpl. exists l', t. by rewrite lookup_insert_eq.
Qed.

Lemma deepcopy_attrs_spec attrs σ :
  live_tensors (heap σ) attrs →
  wp (deepcopy_attrs attrs)
     (λ o σ', ext σ σ' ∧ ∃ out memo,
        o = Ret (out, memo) ∧ memo_ok (heap σ) (heap σ') memo ∧
        copied (heap σ) (heap σ') attrs out) σ.
Proof.
  unfold deepcopy_attrs. revert σ.
  apply (map_fold_weak_ind (λ r m, ∀ σ,
    live_tensors (heap σ) m →
    wp r (λ o σ', ext σ σ' ∧ ∃ out memo,
        o = Ret (out, memo) ∧ memo_ok (heap σ) (heap σ') memo ∧
        copied (heap σ) (heap σ') m out) σ)).
  - intros σ _. apply wp_ret. split; [apply ext_refl|].
    exists ∅, ∅. split; [done|]. split; [by intros ??|].
    intros k. by rewrite !lookup_empty.
  - intros i x m r Hi IH σ Hlive.
    apply wp_bind. eapply wp_mono.
    { apply IH. intros k l Hk. apply (Hlive k).
      rewrite lookup_insert_ne; [done|]. congruence. }
    intros o σ1 (H01&out&memo&->&Hmemo&Hout). simpl.
    apply wp_bind. eapply wp_mono.
    { apply (deepcopy_value_spec σ); [done..|].
      intros l ->. apply (Hlive i). by rewrite lookup_insert_eq. }
    intros o σ2 (H12&v'&memo'&->&Hmemo'&Hv'). simpl.
    apply wp_ret. split; [by eapply ext_trans|].
    eexists _, _. split; [done|]. split; [done|].
    intros k. destruct (decide (k = i)) as [->|Hne].
    + rewrite !lookup_insert_eq. by exists v'.
    + rewrite !lookup_insert_ne by done.
      by apply (copied_mono _ σ1 σ2).
Qed.

Lemma deepcopy_spec l attrs σ :
  heap σ !! l = Some (OFrame attrs) →
  live_tensors (heap σ) attrs →
  wp (deepcopy l)
     (λ o σ1, ext σ σ1 ∧ ∃ l1 attrs1,
        o = Ret l1 ∧ heap σ !! l1 = None ∧
        heap σ1 !! l1 = Some (OFrame attrs1) ∧
        copied (heap σ) (heap σ1) attrs attrs1) σ.
Proof.
  intros Hl Hlive. unfold deepcopy.
  apply wp_bind, wp_read_frame; [|intros Hbad; by destruct (Hbad attrs)].
  intros a Ha. assert (a = attrs) as -> by congruence.
  apply wp_bind. eapply wp_mono; [by apply deepcopy_attrs_spec|].
  intros o σ1 (H01&out&memo&->&_&Hout). simpl.
  apply wp_alloc. intros l1 Hl1. split.
  { eapply ext_trans; [done|]. by apply ext_alloc. }
  exists l1, out. split; [done|]. split; [by eapply ext_fresh|].
  split; [simpl; by rewrite lookup_insert_eq|].
  apply (copied_mono _ σ1); [by apply ext_alloc|done].
Qed.

(** ** What the masking loop does *)

Lemma wp_read_tensor_ok l t (Q : outcome (list (list R)) → state → Prop) σ :
  heap σ !! l = Some (OTensor t) → Q (Ret t) σ → wp (read_tensor l) Q σ.
Proof. intros Hl HQ. unfold wp, read_tensor. by rewrite Hl. Qed.

Lemma wp_read_frame_ok l a (Q : outcome (gmap string value) → state → Prop) σ :
  heap σ !! l = Some (OFrame a) → Q (Ret a) σ → wp (read_frame l) Q σ.
Proof. intros Hl HQ. unfold wp, read_frame. by rewrite Hl. Qed.

Lemma wp_getattr_ok l k a v (Q : outcome value → state → Prop) σ :
  heap σ !! l = Some (OFrame a) → a !! k = Some v →
  Q (Ret v) σ → wp (getattr l k) Q σ.
Proof.
  intros Hl Hk HQ. unfold getattr. apply wp_bind.
  eapply wp_read_frame_ok; [done|]. simpl. by rewrite Hk.
Qed.

Lemma wp_setattr_ok l k v a (Q : outcome unit → state → Prop) σ :
  heap σ !! l = Some (OFrame a) →
  Q (Ret ()) (with_heap (insert l (OFrame (<[k:=v]> a))) σ) →
  wp (setattr l k v) Q σ.
Proof.
  intros Hl HQ. unfold setattr. apply wp_bind.
  eapply wp_read_frame_ok; [done|]. done.
Qed.

Lemma pres_refl l1 σ : pres l1 σ σ.
Proof. by repeat split. Qed.

Lemma pres_trans l1 σ1 σ2 σ3 : pres l1 σ1 σ2 → pres l1 σ2 σ3 → pres l1 σ1 σ3.
Proof.
  intros (H12&?&?&?) (H23&?&?&?). repeat split; [|congruence..].
  intros l o ? ?. by apply H23, H12.
Qed.

Lemma mask_field_spec l1 ik k cur σ :
  heap σ !! l1 = Some (OFrame cur) →
  field_ok (heap σ) ik (cur !! k) →
  wp (mask_field l1 ik k)
     (λ o σ', o = Ret () ∧ pres l1 σ σ' ∧ ∃ v v',
        cur !! k = Some v ∧
        heap σ' !! l1 = Some (OFrame (<[k:=v']> cur)) ∧
        masked (heap σ) (heap σ') ik v v') σ.
Proof.
  intros Hl1 [Hk|(lv&t&t'&Hk&Hlv&Hmul)]; unfold mask_field; apply wp_bind.
  - eapply wp_getattr_ok; [done..|]. simpl. apply wp_bind, wp_ret. simpl.
    eapply wp_setattr_ok; [done|]. split; [done|]. split.
    + repeat split. intros l o Hne Hl. simpl. by rewrite lookup_insert_ne.
    + exists VNone, VNone. split; [done|]. simpl.
      by rewrite lookup_insert_eq.
  - eapply wp_getattr_ok; [done..|]. simpl. apply wp_bind, wp_bind.
    unfold tensor_clone. apply wp_bind. eapply wp_read_tensor_ok; [done|].
    simpl. apply wp_alloc. intros lc Hlc.
    unfold tensor_mul. apply wp_bind, wp_bind.
    eapply wp_read_tensor_ok; [simpl; by rewrite lookup_insert_eq|]. simpl.
    apply wp_bind, wp_lift. rewrite Hmul. simpl.
    apply wp_alloc. intros lm Hlm. simpl in Hlm. apply wp_ret. simpl.
    assert (l1 ≠ lc) by congruence.
    assert (l1 ≠ lm).
    { intros <-. rewrite lookup_insert_ne in Hlm by done. congruence. }
    eapply wp_setattr_ok.
    { simpl. rewrite !lookup_insert_ne by done. done. }
    split; [done|]. split.
    + repeat split. intros l o Hne Hl. simpl.
      rewrite lookup_insert_ne by done.
      assert (l ≠ lc) by congruence.
      assert (l ≠ lm).
      { intros <-. rewrite lookup_insert_ne in Hlm by done. congruence. }
      by rewrite !lookup_insert_ne.
    + exists (VTensor lv), (VTensor lm). split; [done|]. simpl.
      split; [by rewrite lookup_insert_eq|].
      exists lm, t, t'. repeat split; try done.
      rewrite lookup_insert_ne by done. by rewrite lookup_insert_eq.
Qed.

Lemma field_ok_pres l1 a σ σ' ik ov :
  heap σ !! l1 = Some (OFrame a) → pres l1 σ σ' →
  field_ok (heap σ) ik ov → field_ok (heap σ') ik ov.
Proof.
  intros Hl1 [Hp _] [?|(lv&t&t'&?&Hlv&?)]; [by left|]. right.
  exists lv, t, t'. repeat split; try done. apply Hp; [congruence|done].
Qed.

Lemma masked_loop_spec l1 ik ks : ∀ cur σ,
  NoDup ks →
  heap σ !! l1 = Some (OFrame cur) →
  (∀ k, k ∈ ks → field_ok (heap σ) ik (cur !! k)) →
  wp (for_each (mask_field l1 ik) ks)
     (λ o σ', o = Ret () ∧ pres l1 σ σ' ∧ ∃ fin,
        heap σ' !! l1 = Some (OFrame fin) ∧
        (∀ k, k ∉ ks → fin !! k = cur !! k) ∧
        (∀ k, k ∈ ks → ∃ v v',
           cur !! k = Some v ∧ fin !! k = Some v' ∧
           masked (heap σ) (heap σ') ik v v')) σ.
Proof.
  induction ks as [|k ks IH]; intros cur σ Hnd Hl1 Hok; simpl.
  - apply wp_ret. split; [done|]. split; [apply pres_refl|].
    exists cur. split; [done|]. split; [done|]. intros k Hk. by inversion Hk.
  - apply NoDup_cons in Hnd as [Hk Hnd].
    apply wp_bind. eapply wp_mono.
    { apply mask_field_spec; [done|]. apply Hok. by left. }
    intros o σ2 (->&Hp&v&v'&Hv&Hl2&Hm). simpl.
    eapply wp_mono.
    { apply (IH _ σ2 Hnd Hl2). intros k' Hk'.
      rewrite lookup_insert_ne by (intros ->; done).
      apply (field_ok_pres l1 cur σ σ2); [done..|]. apply Hok. by right. }
    intros o σ3 (->&Hp'&fin&Hl3&Hout&Hin).
    split; [done|]. split; [by eapply pres_trans|].
    exists fin. split; [done|]. split.
    + intros k' Hk'. apply not_elem_of_cons in Hk' as [? ?].
      rewrite Hout by done. by rewrite lookup_insert_ne.
    + intros k' Hk'. apply elem_of_cons in Hk' as [->|Hk'].
      * exists v, v'. split; [done|]. split.
        { rewrite Hout by done. by rewrite lookup_insert_eq. }
        destruct v; simpl in *; try done.
        destruct Hm as (lm&t&t'&?&?&?&Hlm). exists lm, t, t'.
        repeat split; try done. apply Hp'; [congruence|done].
      * destruct (Hin k' Hk') as (w&w'&Hw&Hw'&Hmw).
        rewrite lookup_insert_ne in Hw by (intros ->; done).
        exists w, w'. split; [done|]. split; [done|].
        destruct w; simpl in *; try done.
        destruct Hmw as (lm&t&t'&?&Ht&?&?). exists lm, t, t'.
        repeat split; try done.
        destruct (Hok k') as [Hx|(lv&t0&t0'&Hx&Hlv&_)]; [by right|congruence|].
        assert (lv = l) as -> by congruence.
        assert (l ≠ l1) as Hne by congruence.
        destruct Hp as [Hp _]. pose proof (Hp l _ Hne Hlv). congruence.
Qed.

(** ** What [_get_eval_frame_data] returns *)

Lemma NoDup_masked_fields : NoDup masked_fields.
Proof. apply (bool_decide_unpack _). by vm_compute. Qed.

Lemma wp_and {A} (m : M A) (Q1 Q2 : outcome A → state → Prop) σ :
  wp m Q1 σ → wp m Q2 σ → wp m (λ o σ', Q1 o σ' ∧ Q2 o σ') σ.
Proof. unfold wp. auto. Qed.

Lemma get_eval_frame_data_copy σ l attrs ss :
  batch_ok σ l attrs ss →
  wp (_get_eval_frame_data l)
     (λ o σ', ∃ l1 fin,
        o = Ret l1 ∧ heap σ !! l1 = None ∧
        heap σ' !! l1 = Some (OFrame fin) ∧ eval_copy σ σ' ss attrs fin) σ.
Proof.
  intros [Hl Hlive Hft [li Hli] Hok]. unfold _get_eval_frame_data.
  apply wp_bind. eapply wp_mono; [by apply deepcopy_spec|].
  intros o σ1 (H01&l1&attrs1&->&Hn1&Hl1&Hcopied). simpl.
  apply wp_bind. eapply wp_getattr_ok; [by eapply ext_lookup|done|]. simpl.
  apply wp_bind, wp_ret. simpl.
  apply wp_bind. eapply wp_getattr_ok; [by eapply ext_lookup|done|]. simpl.
  destruct (Hlive _ _ Hli) as [ti Hti].
  apply wp_bind. unfold type_as. apply wp_bind.
  eapply wp_read_tensor_ok; [by eapply ext_lookup|]. simpl.
  apply wp_ret. simpl. fold (known_flags ss).
  apply wp_bind. eapply wp_mono.
  { apply (masked_loop_spec l1 (known_flags ss) masked_fields attrs1 σ1);
      [apply NoDup_masked_fields|done|].
    intros k Hk. specialize (Hcopied k).
    destruct (Hok k Hk) as [Hx|(lv&t&t'&Hx&Hlv&Hmul)];
      rewrite Hx in Hcopied; destruct Hcopied as (v'&Hv'&Hc); simpl in Hc.
    - left. congruence.
    - right. destruct Hc as (l'&t0&->&_&Hlv0&Hl').
      exists l', t, t'. split; [done|]. split; [congruence|done]. }
  intros o σ2 (->&Hp&fin&Hl2&Hout&Hin). simpl. apply wp_ret.
  exists l1, fin. split; [done|]. split; [done|]. split; [done|].
  intros k. specialize (Hcopied k).
  destruct (attrs !! k) as [v|] eqn:Hk.
  - destruct Hcopied as (v1&Hv1&Hc).
    case_bool_decide as Hmem.
    + destruct (Hin k Hmem) as (w&w'&Hw&Hw'&Hm).
      assert (w = v1) as -> by congruence.
      exists w'. split; [done|].
      destruct v as [|lv| | |]; simpl in Hc; subst; simpl in *; try done.
      destruct Hc as (l'&t&->&_&Hlv&Hl'). simpl in Hm.
      destruct Hm as (lm&t0&t'&->&Hl0&Hmul&Hlm).
      exists lm, t, t'. split; [done|]. split; [done|].
      split; [congruence|done].
    + rewrite (Hout k Hmem). exists v1. split; [done|].
      destruct v as [|lv| | |]; simpl in Hc; subst; simpl; try done.
      destruct Hc as (l'&t&->&?&?&Hl'). exists l', t.
      repeat split; try done.
      destruct Hp as [Hp _]. apply Hp; [congruence|done].
  - destruct (decide (k ∈ masked_fields)) as [Hmem|Hmem].
    + destruct (Hok k Hmem) as [Hx|(?&?&?&Hx&_)]; congruence.
    + by rewrite (Hout k Hmem).
Qed.

Lemma get_eval_frame_data_spec σ l attrs ss :
  batch_ok σ l attrs ss →
  wp (_get_eval_frame_data l)
     (λ o σ', ext σ σ' ∧ ∃ l1 fin,
        o = Ret l1 ∧ heap σ !! l1 = None ∧
        heap σ' !! l1 = Some (OFrame fin) ∧ eval_copy σ σ' ss attrs fin) σ.
Proof.
  intros Hok. apply wp_and.
  - apply grows_get_eval_frame_data.
  - by apply get_eval_frame_data_copy.
Qed.

(** ** Properties of the masking *)

Lemma wp_elim {A} (m : M A) Q σ :
  wp m Q σ → ∃ o σ', m σ = (o, σ') ∧ Q o σ'.
Proof. unfold wp. intros HQ. exists (m σ).1, (m σ).2. by destruct (m σ). Qed.

Lemma broadcast_mul_same_length (t : list (list R)) ik :
  length t = length ik → broadcast_mul t ik = Ret (zip_with mul_frame t ik).
Proof. intros Hlen. unfold broadcast_mul. by case_decide. Qed.

Lemma length_known_flags ss : length (known_flags ss) = length ss.
Proof. unfold known_flags. by rewrite !length_fmap. Qed.

Lemma lookup_known_flags ss i ft :
  ss !! i = Some ft →
  known_flags ss !! i = Some (if is_known_frame_scalar ft then one else zero).
Proof. intros Hi. unfold known_flags. by rewrite !list_lookup_fmap, Hi. Qed.

Lemma mul_frame_one (row : list R) :
  (∀ x, x ∈ row → mul x one = x) → mul_frame row one = row.
Proof.
  unfold mul_frame. induction row as [|x row IH]; intros Hrow; [done|].
  rewrite !fmap_cons. f_equal; [apply Hrow; by left|].
  apply IH. intros y Hy. apply Hrow. by right.
Qed.

Lemma mul_frame_zero (row : list R) :
  (∀ x, x ∈ row → mul x zero = zero) → mul_frame row zero = zeros row.
Proof.
  unfold mul_frame, zeros. induction row as [|x row IH]; intros Hrow; [done|].
  rewrite !fmap_cons. f_equal; [apply Hrow; by left|].
  apply IH. intros y Hy. apply Hrow. by right.
Qed.

Lemma batch_shaped_ok σ l attrs ss :
  batch_shaped σ l attrs ss → batch_ok σ l attrs ss.
Proof.
  intros [Hl Hlive Hft [ti (li&Hli&_)] Hfields]. split; try done.
  - by exists li.
  - intros k Hk. destruct (Hfields k Hk) as [?|(t&(lv&?&?)&Hlen)]; [by left|].
    right. exists lv, t, (zip_with mul_frame t (known_flags ss)).
    repeat split; try done. apply broadcast_mul_same_length.
    by rewrite length_known_flags.
Qed.

(** The masked tensor of a present field, frame by frame. *)
Lemma masked_frames ss (t t' : list (list R)) i ft row :
  length t = length ss → plain t →
  broadcast_mul t (known_flags ss) = Ret t' →
  ss !! i = Some ft → t !! i = Some row →
  t' !! i = Some (if is_known_frame_scalar ft then row else zeros row).
Proof.
  intros Hlen Hplain Hmul Hft Hrow.
  rewrite broadcast_mul_same_length in Hmul
    by by rewrite length_known_flags.
  injection Hmul as <-.
  rewrite lookup_zip_with, Hrow. simpl.
  rewrite (lookup_known_flags _ _ _ Hft). simpl. f_equal.
  assert (row ∈ t) as Hin by (apply list_elem_of_lookup; eauto).
  destruct (is_known_frame_scalar ft).
  - apply mul_frame_one. intros x Hx. by apply (Hplain row x).
  - apply mul_frame_zero. intros x Hx. by apply (Hplain row x).
Qed.

(** C1.  On a collated batch whose entries are plain, the function returns
    a copy in which, for each of [image_rgb], [depth_map], [fg_probability]
    and [mask_crop] that holds a tensor, every frame marked unknown is zero
    in every entry and every frame marked known is the frame of the input. *)
Theorem masking_zeroes_unknown_frames σ l attrs ss :
  batch_shaped σ l attrs ss →
  (∀ k t, k ∈ masked_fields → field_tensor σ attrs k t → plain t) →
  ∃ l1 σ' fin,
    _get_eval_frame_data l σ = (Ret l1, σ') ∧
    heap σ' !! l1 = Some (OFrame fin) ∧
    ∀ k t, k ∈ masked_fields → field_tensor σ attrs k t →
      ∃ t', field_tensor σ' fin k t' ∧
        ∀ i ft row, ss !! i = Some ft → t !! i = Some row →
          t' !! i = Some (if is_known_frame_scalar ft then row else zeros row).
Proof.
  intros Hshaped Hplain.
  destruct (wp_elim _ _ _
    (get_eval_frame_data_spec σ l attrs ss (batch_shaped_ok _ _ _ _ Hshaped)))
    as (o&σ'&Hrun&_&l1&fin&->&_&Hl1&Hcopy).
  exists l1, σ', fin. split; [done|]. split; [done|].
  intros k t Hk (lv&Hlv&Ht).
  specialize (Hcopy k). rewrite Hlv in Hcopy.
  destruct Hcopy as (v'&Hv'&Hm). rewrite bool_decide_eq_true_2 in Hm by done.
  destruct Hm as (lm&t0&t'&->&Ht0&Hmul&Hlm).
  assert (t0 = t) as -> by congruence.
  exists t'. split; [by exists lm|].
  intros i ft row Hft Hrow.
  destruct (shaped_fields _ _ _ _ Hshaped k Hk)
    as [?|(t1&(l'&?&?)&Hlen)]; [congruence|].
  assert (t1 = t) as -> by congruence.
  eapply masked_frames; [exact Hlen| |done..].
  apply (Hplain k); [done|]. by exists lv.
Qed.

(** C8.  Whatever the outcome of the call, every object that the store held
    before it is the same after it: the input batch keeps its attributes,
    and each tensor of its fields, [image_rgb], [depth_map],
    [fg_probability] and [mask_crop] included, keeps its content. *)
Theorem masking_leaves_input_unmodified σ l attrs o σ' :
  _get_eval_frame_data l σ = (o, σ') →
  heap σ !! l = Some (OFrame attrs) →
  heap σ' !! l = Some (OFrame attrs) ∧
  (∀ k t, field_tensor σ attrs k t → field_tensor σ' attrs k t) ∧
  (∀ l0 ob, heap σ !! l0 = Some ob → heap σ' !! l0 = Some ob).
Proof.
  intros Hrun Hl.
  pose proof (wp_run _ _ _ _ _ (grows_get_eval_frame_data l σ) Hrun) as Hext.
  simpl in Hext. split; [by eapply ext_lookup|]. split.
  - intros k t (lv&?&?). exists lv. split; [done|]. by eapply ext_lookup.
  - intros l0 ob. by apply ext_lookup.
Qed.

(** C4.  In the returned copy, every attribute other than [image_rgb],
    [depth_map], [fg_probability] and [mask_crop] has the value it has in
    the input (a tensor is held by a new object with the same content), and
    no attribute is added or removed. *)
Theorem masking_touches_only_four_fields σ l attrs ss :
  batch_ok σ l attrs ss →
  ∃ l1 σ' fin,
    _get_eval_frame_data l σ = (Ret l1, σ') ∧
    heap σ' !! l1 = Some (OFrame fin) ∧
    dom fin = dom attrs ∧
    ∀ k, k ∉ masked_fields →
      match attrs !! k with
      | None => fin !! k = None
      | Some v => ∃ v', fin !! k = Some v' ∧ same_value σ σ' v v'
      end.
Proof.
  intros Hok.
  destruct (wp_elim _ _ _ (get_eval_frame_data_spec σ l attrs ss Hok))
    as (o&σ'&Hrun&_&l1&fin&->&_&Hl1&Hcopy).
  exists l1, σ', fin. split; [done|]. split; [done|]. split.
  - apply set_eq. intros k. rewrite !elem_of_dom. specialize (Hcopy k).
    destruct (attrs !! k) as [v|].
    + destruct Hcopy as (v'&->&_). split; eauto.
    + rewrite Hcopy. done.
  - intros k Hk. specialize (Hcopy k).
    destruct (attrs !! k) as [v|] eqn:Hv; [|done].
    destruct Hcopy as (v'&Hv'&Hc). exists v'. split; [done|].
    rewrite bool_decide_eq_false_2 in Hc by done.
    destruct v as [|lv| | |]; simpl in Hc.
    + subst. by exists RNone.
    + destruct Hc as (l'&t&->&_&Hlv&Hl'). exists (RTensor t). simpl.
      by rewrite Hlv, Hl'.
    + subst. by eexists.
    + subst. by eexists.
    + subst. by eexists.
Qed.

(** Without an image the call raises before the loop is reached, whatever
    the other fields hold. *)
Lemma image_rgb_none_raises σ l attrs ss :
  heap σ !! l = Some (OFrame attrs) →
  live_tensors (heap σ) attrs →
  attrs !! "frame_type" = Some (VStrs ss) →
  attrs !! "image_rgb" = Some VNone →
  (_get_eval_frame_data l σ).1 = Raise TypeError.
Proof.
  intros Hl Hlive Hft Himg.
  assert (wp (_get_eval_frame_data l) (λ o _, o = Raise TypeError) σ) as H;
    [|exact H].
  unfold _get_eval_frame_data.
  apply wp_bind. eapply wp_mono; [by apply deepcopy_spec|].
  intros o σ1 (H01&l1&attrs1&->&_&_&_). simpl.
  apply wp_bind. eapply wp_getattr_ok; [by eapply ext_lookup|done|]. simpl.
  apply wp_bind, wp_ret. simpl.
  apply wp_bind. eapply wp_getattr_ok; [by eapply ext_lookup|done|]. simpl.
  apply wp_bind. by apply wp_raise.
Qed.

(** With an image in the batch, a field among the four that is [None] is
    [None] in the copy. *)
Lemma none_field_stays_none σ l attrs ss :
  batch_ok σ l attrs ss →
  ∃ l1 σ' fin,
    _get_eval_frame_data l σ = (Ret l1, σ') ∧
    heap σ' !! l1 = Some (OFrame fin) ∧
    ∀ k, k ∈ masked_fields → attrs !! k = Some VNone → fin !! k = Some VNone.
Proof.
  intros Hok.
  destruct (wp_elim _ _ _ (get_eval_frame_data_spec σ l attrs ss Hok))
    as (o&σ'&Hrun&_&l1&fin&->&_&Hl1&Hcopy).
  exists l1, σ', fin. split; [done|]. split; [done|].
  intros k Hk Hnone. specialize (Hcopy k). rewrite Hnone in Hcopy.
  destruct Hcopy as (v'&->&Hm). rewrite bool_decide_eq_true_2 in Hm by done.
  simpl in Hm. by subst.
Qed.

(** ** The calls of one iteration *)

Lemma wp_frame_view_ok l a (Q : outcome (gmap string (rvalue R)) → state → Prop) σ :
  heap σ !! l = Some (OFrame a) →
  Q (Ret (view (heap σ) a)) σ → wp (frame_view l) Q σ.
Proof.
  intros Hl HQ. unfold frame_view. apply wp_bind.
  eapply wp_read_frame_ok; [done|]. done.
Qed.

Lemma view_ext (h h' : gmap loc (obj R)) attrs :
  h ⊆ h' → live_tensors h attrs → view h' attrs = view h attrs.
Proof.
  intros Hsub Hlive. apply map_eq. intros k. unfold view.
  rewrite !lookup_omap. destruct (attrs !! k) as [v|] eqn:Hk; [|done].
  destruct v as [|l| | |]; simpl; try done.
  destruct (Hlive k l Hk) as [t Ht].
  rewrite Ht. by rewrite (lookup_weaken _ _ _ _ Ht Hsub).
Qed.

Lemma view_eval_copy σ σ' ss attrs fin :
  eval_copy σ σ' ss attrs fin →
  view (heap σ') fin = masked_view (known_flags ss) (view (heap σ) attrs).
Proof.
  intros Hcopy. apply map_eq. intros k. unfold masked_view, view.
  rewrite map_lookup_imap, !lookup_omap. specialize (Hcopy k).
  destruct (attrs !! k) as [v|]; [|by rewrite Hcopy].
  destruct Hcopy as (v'&->&Hc). simpl. case_bool_decide.
  - destruct v as [|lv| | |]; simpl in Hc; try done; [by subst|].
    destruct Hc as (lm&t&t'&->&Hlv&Hmul&Hlm). simpl.
    rewrite Hlv, Hlm. simpl. by rewrite Hmul.
  - destruct v as [|lv| | |]; simpl in Hc; subst; simpl; try done.
    destruct Hc as (l'&t&->&_&Hlv&Hl'). simpl. by rewrite Hlv, Hl'.
Qed.

Lemma field_ok_mono (h h' : gmap loc (obj R)) ik ov :
  h ⊆ h' → field_ok h ik ov → field_ok h' ik ov.
Proof.
  intros Hsub [?|(lv&t&t'&?&?&?)]; [by left|]. right.
  exists lv, t, t'. repeat split; try done. by eapply lookup_weaken.
Qed.

Lemma live_tensors_mono (h h' : gmap loc (obj R)) attrs :
  h ⊆ h' → live_tensors h attrs → live_tensors h' attrs.
Proof.
  intros Hsub Hlive k l Hk. destruct (Hlive k l Hk) as [t Ht].
  exists t. by eapply lookup_weaken.
Qed.

(** A batch that is accepted stays so when the store gains objects, also
    under another location that holds the same attributes. *)
Lemma batch_ok_mono σ σ' l l' attrs ss :
  heap σ ⊆ heap σ' → heap σ' !! l' = Some (OFrame attrs) →
  batch_ok σ l attrs ss → batch_ok σ' l' attrs ss.
Proof.
  intros Hsub Hl' [Hl Hlive Hft Himg Hok]. split; try done.
  - by eapply live_tensors_mono.
  - intros k Hk. eapply field_ok_mono; [done|]. by apply Hok.
Qed.

Lemma run_batch_calls self cams dev lp l σ0 σ attrs ss :
  heap σ0 ⊆ heap σ → batch_ok σ0 l attrs ss →
  wp (run_batch self cams dev lp l)
     (λ o σ', heap σ0 ⊆ heap σ' ∧
        ∀ r, o = Ret r →
          ∃ es, log σ' = log σ ++ es ∧ batch_calls σ0 self cams lp l es) σ.
Proof.
  intros Hsub Hok.
  assert (heap σ !! l = Some (OFrame attrs)) as Hl.
  { eapply lookup_weaken; [apply (ok_frame _ _ _ _ Hok)|done]. }
  unfold run_batch. apply wp_bind. unfold frame_to.
  apply wp_bind. eapply wp_read_frame_ok; [done|]. simpl.
  apply wp_alloc. intros f Hf.
  set (σ1 := with_heap (insert f (OFrame attrs)) σ).
  assert (heap σ ⊆ heap σ1) as H1 by by apply insert_subseteq.
  assert (heap σ0 ⊆ heap σ1) as H01 by by etrans.
  assert (batch_ok σ1 f attrs ss) as Hok1.
  { eapply batch_ok_mono; [exact H01| |done]. simpl.
    by rewrite lookup_insert_eq. }
  apply wp_bind. eapply wp_mono; [by apply get_eval_frame_data_spec|].
  intros o σ2 ((H12&Hlog2&_)&l1&fin&->&_&Hl1&Hcopy). simpl.
  assert (heap σ0 ⊆ heap σ2) as H02 by by etrans.
  apply wp_bind. eapply wp_frame_view_ok; [done|]. simpl.
  rewrite (view_eval_copy _ _ _ _ _ Hcopy).
  rewrite (view_ext (heap σ0) (heap σ1)) by (done || apply Hok).
  apply wp_bind, wp_emit. simpl.
  apply wp_bind, wp_call; simpl; [|done].
  intros preds w _. apply wp_bind. unfold getitem.
  destruct (preds !! "implicitron_render") as [render|];
    [|apply wp_raise; done].
  apply wp_ret. simpl.
  apply wp_bind. eapply wp_frame_view_ok.
  { simpl. eapply lookup_weaken; [|exact H12]. simpl.
    by rewrite lookup_insert_eq. }
  simpl. rewrite (view_ext (heap σ0) (heap σ2)) by (done || apply Hok).
  apply wp_bind, wp_emit. simpl.
  apply wp_call; simpl; [|done].
  intros r w' _. split; [done|]. intros ? _.
  eexists. split.
  { rewrite Hlog2. simpl. rewrite <- !app_assoc. reflexivity. }
  exists attrs, ss, f, render. split; [apply Hok|]. split; [apply Hok|].
  done.
Qed.

Lemma eval_loop_calls self cams dev lp σ0 dl : ∀ acc σ,
  heap σ0 ⊆ heap σ →
  Forall (λ l, ∃ attrs ss, batch_ok σ0 l attrs ss) dl →
  wp (eval_loop self cams dev lp dl acc)
     (λ o σ', heap σ0 ⊆ heap σ' ∧
        ∀ rs, o = Ret rs →
          ∃ ess, log σ' = log σ ++ concat ess ∧
                 Forall2 (batch_calls σ0 self cams lp) dl ess) σ.
Proof.
  induction dl as [|l dl IH]; intros acc σ Hsub Hall; simpl.
  - apply wp_ret. split; [done|]. intros rs _. exists [].
    split; [by rewrite app_nil_r|constructor].
  - apply Forall_cons in Hall as [(attrs&ss&Hok) Hall].
    apply wp_bind. eapply wp_mono; [by eapply run_batch_calls|].
    intros [r|e] σ1 [H1 Hcalls]; simpl; [|done].
    destruct (Hcalls r eq_refl) as (es&Hlog&Hes).
    eapply wp_mono; [by apply IH|].
    intros o σ2 [H2 Hrest]. split; [done|]. intros rs ->.
    destruct (Hrest rs eq_refl) as (ess&Hlog'&Hess).
    exists (es :: ess). split; [|by constructor].
    simpl. rewrite Hlog', Hlog. by rewrite app_assoc.
Qed.


(** ** What is logged *)

Lemma emits_silent {A} P (m : M A) :
  (∀ σ, log (m σ).2 = log σ) → emits P m.
Proof.
  intros Hm σ. unfold wp. exists []. rewrite app_nil_r.
  split; [apply Hm|constructor].
Qed.

Lemma emits_bind {A B} P (m : M A) (k : A → M B) :
  emits P m → (∀ a, emits P (k a)) → emits P (bind m k).
Proof.
  intros Hm Hk σ. apply wp_bind. eapply wp_mono; [apply Hm|].
  intros [a|e] σ1 (es&Hlog&Hes); simpl; [|by exists es].
  eapply wp_mono; [apply Hk|]. intros o σ2 (es'&Hlog'&Hes').
  exists (es ++ es'). split; [|by apply Forall_app].
  by rewrite Hlog', Hlog, app_assoc.
Qed.

Lemma emits_emit (P : event → Prop) e : P e → emits P (emit e).
Proof.
  intros He σ. apply wp_emit. exists [e]. split; [done|].
  by repeat constructor.
Qed.

Lemma emits_grows {A} P (m : M A) : grows m → emits P m.
Proof.
  intros Hm. apply emits_silent. intros σ. by destruct (Hm σ) as (_&?&_).
Qed.

Lemma emits_ret {A} P (a : A) : emits P (ret a).
Proof. by apply emits_silent. Qed.

Lemma emits_raise {A} P e : emits P (raise e : M A).
Proof. by apply emits_silent. Qed.

Lemma emits_call {A} P (f : World → answer A * World) : emits P (call f).
Proof.
  apply emits_silent. intros σ. unfold call.
  by destruct (f (world σ)) as [[a|s] w].
Qed.

Lemma emits_getitem {A} P (d : gmap string A) k : emits P (getitem d k).
Proof. unfold getitem. destruct (d !! k); by apply emits_silent. Qed.

Lemma emits_dict_setitem P r k v : emits P (dict_setitem r k v).
Proof.
  apply emits_silent. intros σ. unfold dict_setitem, bind, read_dict.
  by destruct (heap σ !! r) as [[]|].
Qed.

Lemma emits_write_file P path content : emits P (write_file path content).
Proof. by apply emits_silent. Qed.

Lemma emits_for_each {A} P (f : A → M unit) xs :
  (∀ x, emits P (f x)) → emits P (for_each f xs).
Proof.
  intros Hf. induction xs as [|x xs IH]; simpl; [apply emits_ret|].
  apply emits_bind; [apply Hf|]. by intros _.
Qed.

Lemma grows_map_m {A B} (f : A → M B) xs :
  (∀ x, grows (f x)) → grows (map_m f xs).
Proof.
  intros Hf. induction xs as [|x xs IH]; simpl; [apply grows_ret|].
  apply grows_bind; [apply Hf|]. intros y.
  apply grows_bind; [apply IH|]. intros; apply grows_ret.
Qed.

Lemma grows_json_value l : grows (json_value l).
Proof.
  unfold json_value. apply grows_bind; [apply grows_read_list|].
  intros items. apply grows_map_m. apply grows_read_dict.
Qed.

Lemma grows_alloc_records records : grows (alloc_records records).
Proof.
  unfold alloc_records. apply grows_bind; [|intros; apply grows_alloc].
  apply grows_map_m. intros d. apply grows_alloc.
Qed.

Lemma grows_frame_view l : grows (frame_view l).
Proof.
  unfold frame_view. apply grows_bind; [apply grows_read_frame|].
  intros a σ. apply ext_refl.
Qed.

Create HintDb emits discriminated.
#[local] Hint Resolve emits_ret emits_raise emits_call emits_getitem
  emits_dict_setitem emits_write_file : emits.
#[local] Hint Extern 1 (emits _ (_get_eval_frame_data _)) =>
  apply emits_grows, grows_get_eval_frame_data : emits.
#[local] Hint Extern 1 (emits _ (frame_to _ _)) =>
  apply emits_grows, grows_frame_to : emits.
#[local] Hint Extern 1 (emits _ (frame_view _)) =>
  apply emits_grows, grows_frame_view : emits.
#[local] Hint Extern 1 (emits _ (json_value _)) =>
  apply emits_grows, grows_json_value : emits.
#[local] Hint Extern 1 (emits _ (alloc_records _)) =>
  apply emits_grows, grows_alloc_records : emits.
#[local] Hint Extern 1 (emits _ (read_list _)) =>
  apply emits_grows, grows_read_list : emits.

Ltac emits_tac :=
  repeat first
    [ solve [eauto with emits]
    | apply emits_emit; simpl; done
    | apply emits_for_each; intros ?
    | apply emits_bind; [|intros ?]
    | match goal with
      | |- emits _ (match ?x with _ => _ end) => destruct x
      | |- emits _ (if ?x then _ else _) => destruct x
      end ].

Lemma emits_run_batch self cams dev lp l :
  emits (source_cameras_ok self cams) (run_batch self cams dev lp l).
Proof. unfold run_batch. cbv zeta. emits_tac. Qed.

Lemma emits_eval_loop self cams dev lp dl : ∀ acc,
  emits (source_cameras_ok self cams) (eval_loop self cams dev lp dl acc).
Proof.
  induction dl as [|l dl IH]; intros acc; simpl; [apply emits_ret|].
  apply emits_bind; [apply emits_run_batch|]. intros r. apply IH.
Qed.

Lemma emits_model_eval P :
  emits P (λ σ : state, (Ret (), with_world (model_eval (world σ)) σ)).
Proof. by apply emits_silent. Qed.

Lemma emits_run_to_results self dl cams dev :
  emits (source_cameras_ok self cams) (run_to_results self dl cams dev).
Proof.
  unfold run_to_results. cbv zeta.
  repeat first
    [ apply emits_eval_loop
    | apply emits_model_eval
    | solve [eauto with emits]
    | apply emits_emit; simpl; done
    | apply emits_bind; [|intros ?] ].
Qed.

Lemma emits_dump_to_json P epoch exp_dir results :
  (∀ e, (∀ f v r bg lp src, e ≠ EvEvalBatch f v r bg lp src) → P e) →
  emits P (_dump_to_json epoch exp_dir results).
Proof.
  intros HP. unfold _dump_to_json. cbv zeta.
  repeat first
    [ solve [eauto with emits]
    | apply emits_emit; apply HP; by intros
    | apply emits_for_each; intros ?
    | apply emits_bind; [|intros ?]
    | match goal with
      | |- emits _ (match ?x with _ => _ end) => destruct x
      end ].
Qed.

Lemma emits_run self dl cams dev dump exp_dir epoch :
  emits (source_cameras_ok self cams) (run self dl cams dev dump exp_dir epoch).
Proof.
  unfold run. apply emits_bind; [apply emits_run_to_results|]. intros st.
  apply emits_bind; [|intros; apply emits_getitem].
  destruct dump; [|apply emits_ret].
  apply emits_dump_to_json. intros e He. destruct e; try done.
  by edestruct He.
Qed.


(** ** Which exceptions can be raised *)

Lemma may_raise_bind {A B} E (m : M A) (k : A → M B) :
  may_raise E m → (∀ a, may_raise E (k a)) → may_raise E (bind m k).
Proof.
  intros Hm Hk σ e. unfold bind. specialize (Hm σ).
  destruct (m σ) as [[a|e'] σ1]; simpl in *; [apply Hk|].
  intros [= <-]. by apply Hm.
Qed.

Lemma may_raise_ret {A} E (a : A) : may_raise E (ret a).
Proof. by intros σ e. Qed.

Lemma may_raise_raise {A} (E : exn → Prop) e : E e → may_raise E (raise e : M A).
Proof. intros He σ e' [= <-]. done. Qed.

Lemma may_raise_lift {A} (E : exn → Prop) (o : outcome A) :
  (∀ e, o = Raise e → E e) → may_raise E (lift o).
Proof. intros Ho σ e. apply Ho. Qed.

Lemma may_raise_alloc E o : may_raise E (alloc o).
Proof. by intros σ e. Qed.

Lemma may_raise_emit E ev : may_raise E (emit ev).
Proof. by intros σ e. Qed.

Lemma may_raise_call {A} (E : exn → Prop) (f : World → answer A * World) :
  (∀ s, E (ExternalError s)) → may_raise E (call f).
Proof.
  intros HE σ e. unfold call. destruct (f (world σ)) as [[a|s] w]; simpl.
  - done.
  - intros [= <-]. apply HE.
Qed.

Lemma may_raise_read_tensor (E : exn → Prop) l :
  E RuntimeError → may_raise E (read_tensor l).
Proof.
  intros HE σ e. unfold read_tensor.
  destruct (heap σ !! l) as [[]|]; simpl; try done; by intros [= <-].
Qed.

Lemma may_raise_read_frame (E : exn → Prop) l :
  E RuntimeError → may_raise E (read_frame l).
Proof.
  intros HE σ e. unfold read_frame.
  destruct (heap σ !! l) as [[]|]; simpl; try done; by intros [= <-].
Qed.

Lemma may_raise_read_list (E : exn → Prop) l :
  E RuntimeError → may_raise E (read_list l).
Proof.
  intros HE σ e. unfold read_list.
  destruct (heap σ !! l) as [[]|]; simpl; try done; by intros [= <-].
Qed.

Lemma may_raise_read_dict (E : exn → Prop) l :
  E RuntimeError → may_raise E (read_dict l).
Proof.
  intros HE σ e. unfold read_dict.
  destruct (heap σ !! l) as [[]|]; simpl; try done; by intros [= <-].
Qed.

Lemma may_raise_for_each {A} E (f : A → M unit) xs :
  (∀ x, may_raise E (f x)) → may_raise E (for_each f xs).
Proof.
  intros Hf. induction xs as [|x xs IH]; simpl; [apply may_raise_ret|].
  apply may_raise_bind; [apply Hf|]. by intros _.
Qed.

Lemma may_raise_map_m {A B} E (f : A → M B) xs :
  (∀ x, may_raise E (f x)) → may_raise E (map_m f xs).
Proof.
  intros Hf. induction xs as [|x xs IH]; simpl; [apply may_raise_ret|].
  apply may_raise_bind; [apply Hf|]. intros y.
  apply may_raise_bind; [apply IH|]. intros; apply may_raise_ret.
Qed.

Lemma not_config_external s : not_config (ExternalError s).
Proof. done. Qed.

Lemma not_config_runtime : not_config RuntimeError.
Proof. done. Qed.

Lemma not_config_type : not_config TypeError.
Proof. done. Qed.

Lemma not_config_attribute k : not_config (AttributeError k).
Proof. done. Qed.

Lemma not_config_key k : not_config (KeyError k).
Proof. done. Qed.

Create HintDb raises discriminated.
#[local] Hint Resolve may_raise_ret may_raise_alloc may_raise_emit
  may_raise_call may_raise_read_tensor may_raise_read_frame
  may_raise_read_list may_raise_read_dict may_raise_raise
  not_config_external not_config_runtime not_config_type
  not_config_attribute not_config_key : raises.

Ltac raises_tac :=
  repeat first
    [ solve [eauto with raises]
    | apply may_raise_for_each; intros ?
    | apply may_raise_map_m; intros ?
    | apply may_raise_bind; [|intros ?]
    | match goal with
      | |- may_raise _ (match ?x with _ => _ end) => destruct x
      | |- may_raise _ (if ?x then _ else _) => destruct x
      end ].

Lemma may_raise_getattr l k : may_raise not_config (getattr l k).
Proof. unfold getattr. raises_tac. Qed.

Lemma may_raise_setattr l k v : may_raise not_config (setattr l k v).
Proof.
  unfold setattr. apply may_raise_bind; [raises_tac|]. by intros a σ e.
Qed.

Lemma may_raise_broadcast_mul (t : list (list R)) ik :
  may_raise not_config (lift (broadcast_mul t ik)).
Proof.
  apply may_raise_lift. intros e. unfold broadcast_mul.
  case_decide; [done|]. destruct ik as [|? [|? ?]], t as [|? [|? ?]];
    intros [= <-]; done.
Qed.

Lemma may_raise_deepcopy_attrs attrs : may_raise not_config (deepcopy_attrs attrs).
Proof.
  unfold deepcopy_attrs.
  apply (map_fold_weak_ind (λ r _, may_raise not_config r));
    [apply may_raise_ret|].
  intros k v m r _ IH. apply may_raise_bind; [done|]. intros st.
  unfold deepcopy_value, deepcopy_tensor. raises_tac.
Qed.

#[local] Hint Resolve may_raise_getattr may_raise_setattr
  may_raise_broadcast_mul may_raise_deepcopy_attrs : raises.

Lemma may_raise_get_eval_frame_data l :
  may_raise not_config (_get_eval_frame_data l).
Proof.
  unfold _get_eval_frame_data, deepcopy, is_known_frame, type_as.
  repeat first
    [ solve [eauto with raises]
    | apply may_raise_for_each; intros ?; unfold mask_field, tensor_clone,
        tensor_mul
    | apply may_raise_bind; [|intros ?]
    | match goal with
      | |- may_raise _ (match ?x with _ => _ end) => destruct x
      end ].
Qed.

Lemma may_raise_frame_view l : may_raise not_config (frame_view l).
Proof.
  unfold frame_view. apply may_raise_bind; [raises_tac|]. by intros a σ e.
Qed.

Lemma may_raise_getitem {A} (d : gmap string A) k :
  may_raise not_config (getitem d k).
Proof. unfold getitem. raises_tac. Qed.

#[local] Hint Resolve may_raise_get_eval_frame_data may_raise_frame_view
  may_raise_getitem : raises.

Lemma may_raise_run_batch self cams dev lp l :
  may_raise not_config (run_batch self cams dev lp l).
Proof. unfold run_batch, frame_to. cbv zeta. raises_tac. Qed.

Lemma may_raise_eval_loop self cams dev lp dl : ∀ acc,
  may_raise not_config (eval_loop self cams dev lp dl acc).
Proof.
  induction dl as [|l dl IH]; intros acc; simpl; [apply may_raise_ret|].
  apply may_raise_bind; [apply may_raise_run_batch|]. intros r. apply IH.
Qed.

(** Nothing before the dump raises the configuration error. *)
Lemma may_raise_run_to_results self dl cams dev :
  may_raise not_config (run_to_results self dl cams dev).
Proof.
  unfold run_to_results, alloc_records, json_value. cbv zeta.
  repeat first
    [ apply may_raise_eval_loop
    | solve [eauto with raises]
    | by intros σ e
    | apply may_raise_map_m; intros ?
    | apply may_raise_bind; [|intros ?] ].
Qed.

(** ** The result records and the dump *)

Lemma wp_true {A} (m : M A) σ : wp m (λ _ _, True) σ.
Proof. done. Qed.

Lemma wp_read_list_ok l items (Q : outcome (list loc) → state → Prop) σ :
  heap σ !! l = Some (OList items) → Q (Ret items) σ → wp (read_list l) Q σ.
Proof. intros Hl HQ. unfold wp, read_list. by rewrite Hl. Qed.

Lemma wp_read_dict_ok l d (Q : outcome (gmap string (jvalue R)) → state → Prop) σ :
  heap σ !! l = Some (ODict d) → Q (Ret d) σ → wp (read_dict l) Q σ.
Proof. intros Hl HQ. unfold wp, read_dict. by rewrite Hl. Qed.

(** When [json.dump] can read the records, they are in the store. *)
Lemma map_m_read_dict_inv items σ :
  wp (map_m read_dict items)
     (λ o σ', σ' = σ ∧ ∀ ds, o = Ret ds →
        Forall2 (λ r d, heap σ !! r = Some (ODict d)) items ds) σ.
Proof.
  induction items as [|r items IH]; simpl.
  - apply wp_ret. split; [done|]. intros ds [= <-]. constructor.
  - apply wp_bind, wp_read_dict; [|done].
    intros d Hd. apply wp_bind. eapply wp_mono; [apply IH|].
    intros [ds|e] σ' [-> Hds]; simpl; [|done].
    apply wp_ret. split; [done|]. intros ? [= <-].
    constructor; [done|]. by apply Hds.
Qed.

Lemma json_value_inv res σ :
  wp (json_value res)
     (λ o σ', σ' = σ ∧ ∀ ds, o = Ret ds → records_at (heap σ) res ds) σ.
Proof.
  unfold json_value. apply wp_bind, wp_read_list; [|done].
  intros items Hitems. eapply wp_mono; [apply map_m_read_dict_inv|].
  intros o σ' [-> Hds]. split; [done|]. intros ds ->.
  exists items. split; [done|]. by apply Hds.
Qed.

Lemma map_m_read_dict_ok items ds σ :
  Forall2 (λ r d, heap σ !! r = Some (ODict d)) items ds →
  map_m read_dict items σ = (Ret ds, σ).
Proof.
  induction 1 as [|r d items ds Hr _ IH]; [done|].
  simpl. unfold bind at 1. unfold read_dict at 1. rewrite Hr.
  unfold bind at 1. by rewrite IH.
Qed.

Lemma json_value_ok res ds σ :
  records_at (heap σ) res ds → json_value res σ = (Ret ds, σ).
Proof.
  intros (items&Hres&Hitems). unfold json_value, bind, read_list.
  rewrite Hres. by apply map_m_read_dict_ok.
Qed.

(** The tagging loop writes the field into every record, in place, and
    touches nothing else. *)
Lemma tag_loop_spec k v items : ∀ σ,
  Forall (λ r, ∃ d, heap σ !! r = Some (ODict d)) items →
  wp (for_each (λ r, dict_setitem r k v) items)
     (λ o σ', o = Ret () ∧
        log σ' = log σ ∧ files σ' = files σ ∧ world σ' = world σ ∧
        (∀ l, l ∉ items → heap σ' !! l = heap σ !! l) ∧
        (∀ r d, r ∈ items → heap σ !! r = Some (ODict d) →
                heap σ' !! r = Some (ODict (<[k:=v]> d)))) σ.
Proof.
  induction items as [|r items IH]; intros σ Hall; simpl.
  - apply wp_ret. repeat split; try done. intros r d Hr. by inversion Hr.
  - apply Forall_cons in Hall as [[d Hd] Hall].
    apply wp_bind. unfold dict_setitem. apply wp_bind.
    eapply wp_read_dict_ok; [done|]. simpl. unfold wp at 1. simpl.
    set (σ2 := with_heap (insert r (ODict (<[k:=v]> d))) σ).
    eapply wp_mono.
    { apply (IH σ2). eapply Forall_impl; [exact Hall|].
      intros r' [d' Hd']. simpl.
      destruct (decide (r' = r)) as [->|Hne].
      - rewrite lookup_insert_eq. eauto.
      - rewrite lookup_insert_ne by done. eauto. }
    intros o σ3 (->&?&?&?&Hout&Hin). repeat split; try done.
    + intros l Hl. apply not_elem_of_cons in Hl as [? ?].
      rewrite Hout by done. simpl. by rewrite lookup_insert_ne.
    + intros r0 d0 Hr0 Hd0.
      destruct (decide (r0 ∈ items)) as [Hmem|Hmem].
      * destruct (decide (r0 = r)) as [->|Hne].
        -- assert (d0 = d) as -> by congruence.
           rewrite (Hin r (<[k:=v]> d) Hmem)
             by (simpl; by rewrite lookup_insert_eq).
           by rewrite insert_insert_eq.
        -- apply Hin; [done|]. simpl. by rewrite lookup_insert_ne.
      * apply elem_of_cons in Hr0 as [->|?]; [|done].
        rewrite Hout by done. simpl. rewrite lookup_insert_eq. congruence.
Qed.

Lemma records_at_items (h : gmap loc (obj R)) res ds items :
  records_at h res ds → h !! res = Some (OList items) →
  Forall2 (λ r d, h !! r = Some (ODict d)) items ds ∧ res ∉ items.
Proof.
  intros (items'&Hres&Hitems) Hres'. assert (items' = items) as -> by congruence.
  split; [done|]. intros Hmem.
  apply list_elem_of_lookup in Hmem as [i Hi].
  destruct (Forall2_lookup_l _ _ _ _ _ Hitems Hi) as (d&_&Hd). congruence.
Qed.

Lemma tag_records_spec e res ds σ :
  records_at (heap σ) res ds →
  wp (items <- read_list res ;;
      for_each (λ r, dict_setitem r "eval_epoch" (JInt e)) items)
     (λ o σ', o = Ret () ∧
        log σ' = log σ ∧ files σ' = files σ ∧ world σ' = world σ ∧
        records_at (heap σ') res (tagged (Some e) ds)) σ.
Proof.
  intros Hrec. pose proof Hrec as (items&Hres&_).
  destruct (records_at_items _ _ _ _ Hrec Hres) as [Hitems Hnot].
  apply wp_bind. eapply wp_read_list_ok; [done|]. simpl.
  eapply wp_mono.
  { apply tag_loop_spec. apply Forall_forall. intros r Hr.
    apply list_elem_of_lookup in Hr as [i Hi].
    destruct (Forall2_lookup_l _ _ _ _ _ Hitems Hi) as (d&_&Hd). eauto. }
  intros o σ' (->&?&?&?&Hout&Hin). repeat split; try done.
  exists items. split; [by rewrite Hout|].
  unfold tagged. apply Forall2_fmap_r.
  eapply Forall2_impl; [|intros r d Hd; exact Hd].
  apply Forall2_same_length_lookup. split; [by eapply Forall2_length|].
  intros i r d Hr Hd. apply Hin; [apply list_elem_of_lookup; eauto|].
  by apply (Forall2_lookup_lr _ _ _ _ _ _ Hitems Hr Hd).
Qed.

(** [_dump_to_json] on a list of records of the store. *)
Lemma dump_to_json_spec epoch exp_dir res ds σ :
  records_at (heap σ) res ds →
  wp (_dump_to_json epoch exp_dir res)
     (λ o σ',
        records_at (heap σ') res (tagged epoch ds) ∧
        match exp_dir with
        | None => o = Raise config_error ∧ files σ' = files σ
        | Some d =>
            let path := os_path_join d "results_test.json" in
            match (open_for_writing path (world σ)).1 with
            | Answer _ =>
                o = Ret () ∧
                files σ' = <[path := tagged epoch ds]> (files σ)
            | Fails s =>
                o = Raise (ExternalError s) ∧ files σ' = files σ
            end
        end) σ.
Proof.
  intros Hrec. unfold _dump_to_json. apply wp_bind.
  assert (wp
    match epoch with
    | Some e =>
        items <- read_list res ;;
        for_each (λ r, dict_setitem r "eval_epoch" (JInt e)) items
    | None => ret ()
    end
    (λ o σ', o = Ret () ∧
       log σ' = log σ ∧ files σ' = files σ ∧ world σ' = world σ ∧
       records_at (heap σ') res (tagged epoch ds)) σ) as Htag.
  { destruct epoch as [e|]; [by apply tag_records_spec|by apply wp_ret]. }
  eapply wp_mono; [exact Htag|].
  intros o σ1 (->&Hlog&Hfiles&Hworld&Hrec1). simpl.
  apply wp_bind, wp_emit. simpl.
  destruct exp_dir as [d|]; [|by apply wp_raise].
  cbv zeta. apply wp_bind, wp_call; simpl; rewrite Hworld.
  - intros [] w ->. simpl. apply wp_bind.
    unfold wp at 1. rewrite (json_value_ok res (tagged epoch ds)) by done.
    simpl. apply wp_bind, wp_emit. simpl. unfold wp. simpl.
    rewrite Hfiles. done.
  - intros s w ->. simpl. done.
Qed.

(** What a completed evaluation hands to the dump. *)
Lemma run_to_results_records self dl cams dev σ :
  wp (run_to_results self dl cams dev)
     (λ o σ1, ∀ cr res, o = Ret (cr, res) →
        cr !! "results" = Some res ∧ ∃ ds, records_at (heap σ1) res ds) σ.
Proof.
  unfold run_to_results. cbv zeta.
  apply wp_bind, wp_emit. simpl.
  apply wp_bind, wp_call; [|done]. intros lp0 w0 _. simpl.
  apply wp_bind, wp_call; [|done]. intros lp w1 _. simpl.
  apply wp_bind, wp_emit. simpl.
  apply wp_bind. unfold wp at 1. simpl.
  apply wp_bind, wp_emit. simpl.
  apply wp_bind. eapply wp_mono; [apply wp_true|].
  intros [per_batch|e] σ1 _; simpl; [|done].
  apply wp_bind, wp_emit. simpl.
  apply wp_bind, wp_call; [|done]. intros summary w2 _. simpl.
  apply wp_bind. unfold getitem at 1.
  destruct (summary !! "results") as [records|]; [|by apply wp_raise].
  apply wp_ret. simpl.
  apply wp_bind. eapply wp_mono; [apply wp_true|].
  intros [res|e] σ2 _; simpl; [|done].
  apply wp_bind. unfold getitem. rewrite lookup_singleton_eq.
  apply wp_ret. simpl.
  apply wp_bind. eapply wp_mono; [apply json_value_inv|].
  intros [shown|e] σ3 [-> Hshown]; simpl; [|done].
  apply wp_bind, wp_emit. simpl.
  apply wp_bind, wp_call; [|done]. intros [] w3 _. simpl.
  apply wp_ret. intros cr res' [= <- <-].
  split; [by rewrite lookup_singleton_eq|].
  exists shown. by apply Hshown.
Qed.

(** ** [run] and the dump *)

Lemma run_unfold self dl cams dev dump exp_dir epoch σ :
  run self dl cams dev dump exp_dir epoch σ =
  match run_to_results self dl cams dev σ with
  | (Ret st, σ1) =>
      match (if dump then _dump_to_json epoch exp_dir st.2 else ret ()) σ1 with
      | (Ret _, σ2) => getitem st.1 "results" σ2
      | (Raise e, σ2) => (Raise e, σ2)
      end
  | (Raise e, σ1) => (Raise e, σ1)
  end.
Proof. reflexivity. Qed.

Lemma results_path d :
  d ≠ "" → ends_with_sep d = false →
  os_path_join d "results_test.json" = d +:+ "/results_test.json".
Proof.
  intros Hd Hsep. unfold os_path_join. simpl.
  rewrite bool_decide_eq_false_2 by done. by rewrite Hsep.
Qed.

Lemma tagged_has_epoch e (ds : list (gmap string (jvalue R))) :
  Forall (λ r, r !! "eval_epoch" = Some (JInt e)) (tagged (Some e) ds).
Proof.
  unfold tagged. apply Forall_fmap, Forall_forall. intros d _. simpl.
  by rewrite lookup_insert_eq.
Qed.

(** C3.  After an evaluation that completes, with [dump_to_json] set, an
    [exp_dir] and a file that opens for writing, [run] returns and the file
    [os.path.join(exp_dir, "results_test.json")] holds the records of the
    results list: each with [eval_epoch] set to the epoch when one is
    given, and as they are, with no field added, when it is [None]. *)
Theorem dump_writes_tagged_records self dl cams dev d epoch σ cr res σ1 :
  run_to_results self dl cams dev σ = (Ret (cr, res), σ1) →
  (open_for_writing (os_path_join d "results_test.json") (world σ1)).1
    = Answer () →
  ∃ ds σ2,
    records_at (heap σ1) res ds ∧
    run self dl cams dev true (Some d) epoch σ = (Ret res, σ2) ∧
    files σ2 !! os_path_join d "results_test.json" = Some (tagged epoch ds) ∧
    (∀ e, epoch = Some e →
          tagged epoch ds = insert "eval_epoch" (JInt e) <$> ds ∧
          Forall (λ r, r !! "eval_epoch" = Some (JInt e)) (tagged epoch ds)) ∧
    (epoch = None → tagged epoch ds = ds).
Proof.
  intros Hrun Hopen.
  destruct (wp_run _ _ _ _ _ (run_to_results_records self dl cams dev σ) Hrun
              cr res eq_refl) as (Hcr&ds&Hrec).
  destruct (wp_elim _ _ _ (dump_to_json_spec epoch (Some d) res ds σ1 Hrec))
    as (o&σ2&Hdump&_&Hpost).
  cbv zeta in Hpost. rewrite Hopen in Hpost. destruct Hpost as [-> Hfiles].
  exists ds, σ2. split; [done|]. split.
  { rewrite run_unfold, Hrun. simpl. rewrite Hdump.
    unfold getitem. by rewrite Hcr. }
  split; [by rewrite Hfiles, lookup_insert_eq|]. split.
  - intros e ->. split; [done|]. apply tagged_has_epoch.
  - by intros ->.
Qed.

(** C10.  After an evaluation that completes, with [dump_to_json] set and
    an epoch, the records of the results list carry [eval_epoch] in the
    store in which [run] ends: in the list it returns, and also when there
    is no [exp_dir], where [run] raises the configuration error with the
    records already tagged and no file written. *)
Theorem epoch_tag_precedes_config_error self dl cams dev exp_dir e σ cr res σ1 :
  run_to_results self dl cams dev σ = (Ret (cr, res), σ1) →
  ∃ ds o σ2,
    records_at (heap σ1) res ds ∧
    run self dl cams dev true exp_dir (Some e) σ = (o, σ2) ∧
    records_at (heap σ2) res (insert "eval_epoch" (JInt e) <$> ds) ∧
    (∀ r, o = Ret r → r = res) ∧
    (exp_dir = None → o = Raise config_error ∧ files σ2 = files σ1).
Proof.
  intros Hrun.
  destruct (wp_run _ _ _ _ _ (run_to_results_records self dl cams dev σ) Hrun
              cr res eq_refl) as (Hcr&ds&Hrec).
  destruct (wp_elim _ _ _ (dump_to_json_spec (Some e) exp_dir res ds σ1 Hrec))
    as (o&σ2&Hdump&Hrec2&Hpost).
  exists ds.
  destruct o as [[]|err].
  - exists (Ret res), σ2. split; [done|]. split.
    { rewrite run_unfold, Hrun. simpl. rewrite Hdump.
      unfold getitem. by rewrite Hcr. }
    split; [done|]. split; [by intros r [= <-]|].
    intros ->. by destruct Hpost.
  - exists (Raise err), σ2. split; [done|]. split.
    { rewrite run_unfold, Hrun. simpl. by rewrite Hdump. }
    split; [done|]. split; [done|].
    intros ->. destruct Hpost as [[= ->] ?]. done.
Qed.

(** C2, as the code has it.  [run] raises the configuration error exactly
    when [dump_to_json] is set, [exp_dir] is [None] and the evaluation
    before the dump has completed; in particular never when
    [dump_to_json] is false. *)
Theorem config_error_iff self dl cams dev dump exp_dir epoch σ :
  (run self dl cams dev dump exp_dir epoch σ).1 = Raise config_error ↔
  dump = true ∧ exp_dir = None ∧
  ∃ st σ1, run_to_results self dl cams dev σ = (Ret st, σ1).
Proof.
  rewrite run_unfold.
  destruct (run_to_results self dl cams dev σ) as [[[cr res]|err] σ1] eqn:Hrun.
  2:{ simpl. split.
      - intros [= ->].
        by destruct (may_raise_run_to_results self dl cams dev σ config_error);
          [rewrite Hrun|].
      - by intros (_&_&?&?&?). }
  destruct (wp_run _ _ _ _ _ (run_to_results_records self dl cams dev σ) Hrun
              cr res eq_refl) as (Hcr&ds&Hrec).
  simpl. destruct dump.
  - destruct (wp_elim _ _ _ (dump_to_json_spec epoch exp_dir res ds σ1 Hrec))
      as (o&σ2&Hdump&_&Hpost).
    rewrite Hdump. destruct exp_dir as [d|].
    + cbv zeta in Hpost.
      destruct ((open_for_writing (os_path_join d "results_test.json")
                   (world σ1)).1) as [[]|s]; destruct Hpost as [-> _]; simpl.
      * unfold getitem. rewrite Hcr. split; [done|]. by intros (_&?&_).
      * split; [done|]. by intros (_&?&_).
    + destruct Hpost as [-> _]. simpl. split; [|done].
      intros _. repeat split. by eexists _, _.
  - unfold ret, getitem. rewrite Hcr. simpl. split; [done|]. by intros (?&_).
Qed.

(** * Further properties *)

(** ** The copy shares nothing with the input *)

Lemma masked_value_fresh v ik σ :
  wp (match v with
      | VNone => ret VNone
      | VTensor lv =>
          lc <- tensor_clone lv ;;
          lm <- tensor_mul lc ik ;;
          ret (VTensor lm)
      | _ => raise (AttributeError "clone")
      end)
     (λ o σ', ext σ σ' ∧
        ∀ lm, o = Ret (VTensor lm) → heap σ !! lm = None) σ.
Proof.
  destruct v as [|lv| | |];
    try (apply wp_raise; split; [apply ext_refl|done]).
  { apply wp_ret. split; [apply ext_refl|done]. }
  apply wp_bind. unfold tensor_clone. apply wp_bind, wp_read_tensor.
  2:{ intros _. split; [apply ext_refl|done]. }
  intros t Ht. apply wp_alloc. intros lc Hlc.
  apply wp_bind. unfold tensor_mul. apply wp_bind, wp_read_tensor.
  2:{ intros _. split; [by apply ext_alloc|done]. }
  intros t1 Ht1. apply wp_bind, wp_lift.
  destruct (broadcast_mul t1 ik) as [t'|e]; [|split; [by apply ext_alloc|done]].
  apply wp_alloc. intros lm Hlm. apply wp_ret. split.
  - eapply ext_trans; [by apply ext_alloc|]. by apply ext_alloc.
  - intros ? [= <-]. simpl in Hlm.
    by apply lookup_insert_None in Hlm as [? _].
Qed.

Lemma mask_field_fresh σ0 l1 ik k σ :
  heap σ0 !! l1 = None → fresh_copy σ0 l1 σ →
  wp (mask_field l1 ik k) (λ _ σ', fresh_copy σ0 l1 σ') σ.
Proof.
  intros Hl1 (H0&cur&Hcur&Hfresh). unfold mask_field.
  apply wp_bind. unfold getattr. apply wp_bind.
  eapply wp_read_frame_ok; [done|]. simpl.
  destruct (cur !! k) as [v|] eqn:Hk; [|apply wp_raise; by split; eauto].
  apply wp_ret. simpl. apply wp_bind.
  eapply wp_mono; [apply masked_value_fresh|].
  intros [v'|e] σ2 [H2 Hv']; simpl.
  2:{ split; [by eapply ext_trans|]. exists cur. split; [|done].
      by eapply ext_lookup. }
  eapply wp_setattr_ok; [by eapply ext_lookup|].
  split; [apply ext_store; [by eapply ext_trans|done]|].
  exists (<[k:=v']> cur). split; [simpl; by rewrite lookup_insert_eq|].
  intros k' lv. destruct (decide (k' = k)) as [->|Hne].
  - rewrite lookup_insert_eq. intros [= ->].
    eapply ext_fresh; [exact H0|]. by apply Hv'.
  - rewrite lookup_insert_ne by done. apply Hfresh.
Qed.

Lemma masked_loop_fresh σ0 l1 ik ks : ∀ σ,
  heap σ0 !! l1 = None → fresh_copy σ0 l1 σ →
  wp (for_each (mask_field l1 ik) ks) (λ _ σ', fresh_copy σ0 l1 σ') σ.
Proof.
  induction ks as [|k ks IH]; intros σ Hl1 Hinv; simpl; [by apply wp_ret|].
  apply wp_bind. eapply wp_mono; [by apply mask_field_fresh|].
  intros [[]|e] σ2 H2; simpl; [by apply IH|done].
Qed.

Lemma deepcopy_attrs_fresh attrs σ :
  wp (deepcopy_attrs attrs)
     (λ o σ', ext σ σ' ∧ ∀ out memo, o = Ret (out, memo) →
        (∀ l l', memo !! l = Some l' → heap σ !! l' = None) ∧
        (∀ k lv, out !! k = Some (VTensor lv) → heap σ !! lv = None)) σ.
Proof.
  unfold deepcopy_attrs. revert σ.
  apply (map_fold_weak_ind (λ r (_ : gmap string value), ∀ σ,
    wp r (λ o σ', ext σ σ' ∧ ∀ out memo, o = Ret (out, memo) →
        (∀ l l', memo !! l = Some l' → heap σ !! l' = None) ∧
        (∀ k lv, out !! k = Some (VTensor lv) → heap σ !! lv = None)) σ)).
  - intros σ. apply wp_ret. split; [apply ext_refl|].
    intros ?? [= <- <-]. split; intros ??; by rewrite lookup_empty.
  - intros i x m r _ IH σ. apply wp_bind. eapply wp_mono; [apply IH|].
    intros [[out memo]|e] σ1 [H1 Hinv]; simpl; [|done].
    destruct (Hinv _ _ eq_refl) as [Hmemo Hout].
    apply wp_bind. unfold deepcopy_value.
    destruct x as [|l| | |];
      try (apply wp_ret; simpl; apply wp_ret; split; [done|];
           intros ?? [= <- <-]; split; [done|]; intros k lv;
           destruct (decide (k = i)) as [->|];
           [by rewrite lookup_insert_eq
           |rewrite lookup_insert_ne by done; apply Hout]).
    apply wp_bind. unfold deepcopy_tensor. destruct (memo !! l) as [l'|] eqn:E.
    + apply wp_ret. simpl. apply wp_ret. simpl. apply wp_ret.
      split; [done|]. intros ?? [= <- <-]. split; [done|].
      intros k lv. destruct (decide (k = i)) as [->|].
      * rewrite lookup_insert_eq. intros [= <-]. by eapply Hmemo.
      * rewrite lookup_insert_ne by done. apply Hout.
    + apply wp_bind, wp_read_tensor; [|done].
      intros t Ht. apply wp_bind, wp_alloc. intros l' Hl'.
      apply wp_ret. simpl. apply wp_ret. simpl. apply wp_ret.
      assert (heap σ !! l' = None) as Hn by by eapply ext_fresh.
      split; [eapply ext_trans; [done|by apply ext_alloc]|].
      intros ?? [= <- <-]. split.
      * intros l0 l0'. destruct (decide (l0 = l)) as [->|].
        -- rewrite lookup_insert_eq. by intros [= <-].
        -- rewrite lookup_insert_ne by done. apply Hmemo.
      * intros k lv. destruct (decide (k = i)) as [->|].
        -- rewrite lookup_insert_eq. by intros [= <-].
        -- rewrite lookup_insert_ne by done. apply Hout.
Qed.

Lemma deepcopy_fresh_copy l σ :
  wp (deepcopy l)
     (λ o σ1, ext σ σ1 ∧
        ∀ l1, o = Ret l1 → heap σ !! l1 = None ∧ fresh_copy σ l1 σ1) σ.
Proof.
  unfold deepcopy. apply wp_bind, wp_read_frame; [|split; [apply ext_refl|done]].
  intros a _. apply wp_bind. eapply wp_mono; [apply deepcopy_attrs_fresh|].
  intros [[out memo]|e] σ1 [H1 Hinv]; simpl; [|done].
  destruct (Hinv _ _ eq_refl) as [_ Hout].
  apply wp_alloc. intros l1 Hl1.
  assert (ext σ (with_heap (insert l1 (OFrame out)) σ1)) as Hext.
  { eapply ext_trans; [done|]. by apply ext_alloc. }
  split; [done|]. intros ? [= <-].
  split; [exact (ext_fresh _ _ _ H1 Hl1)|]. split; [done|].
  exists out. split; [simpl; by rewrite lookup_insert_eq|done].
Qed.

(** X1.  The object that [_get_eval_frame_data] returns is new, and so is
    every tensor it refers to: none of them is an object of the store the
    call started from. *)
Theorem eval_copy_shares_nothing σ l l1 σ' :
  _get_eval_frame_data l σ = (Ret l1, σ') →
  heap σ !! l1 = None ∧
  ∃ fin, heap σ' !! l1 = Some (OFrame fin) ∧
         ∀ k lv, fin !! k = Some (VTensor lv) → heap σ !! lv = None.
Proof.
  intros Hrun.
  assert (wp (_get_eval_frame_data l)
    (λ o σ', ∀ l1, o = Ret l1 → heap σ !! l1 = None ∧ fresh_copy σ l1 σ') σ)
    as Hwp.
  { unfold _get_eval_frame_data. apply wp_bind.
    eapply wp_mono; [apply deepcopy_fresh_copy|].
    intros [l0|e] σ1 [H1 Hl0]; simpl; [|done].
    destruct (Hl0 _ eq_refl) as [Hn Hinv].
    assert (∀ {A} (m : M A) σa, grows m → fresh_copy σ l0 σa →
              wp m (λ _ σb, fresh_copy σ l0 σb) σa) as Hgrow.
    { intros A m σa Hm (Ha&cur&Hcur&Hf). eapply wp_mono; [apply Hm|].
      intros o σb Hb. simpl in Hb. split; [by eapply ext_trans|].
      exists cur. split; [by eapply ext_lookup|done]. }
    apply wp_bind. eapply wp_mono; [apply Hgrow; [apply grows_getattr|done]|].
    intros [ft|e] σ2 H2; simpl; [|done].
    apply wp_bind. eapply wp_mono; [apply Hgrow; [apply grows_is_known_frame|done]|].
    intros [flags|e] σ3 H3; simpl; [|done].
    apply wp_bind. eapply wp_mono; [apply Hgrow; [apply grows_getattr|done]|].
    intros [img|e] σ4 H4; simpl; [|done].
    apply wp_bind. eapply wp_mono; [apply Hgrow; [apply grows_type_as|done]|].
    intros [ik|e] σ5 H5; simpl; [|done].
    apply wp_bind. eapply wp_mono;
      [exact (masked_loop_fresh σ l0 ik masked_fields σ5 Hn H5)|].
    intros [[]|e] σ6 H6; simpl; [|done].
    apply wp_ret. by intros ? [= <-]. }
  destruct (wp_run _ _ _ _ _ Hwp Hrun l1 eq_refl) as (Hn&_&fin&Hfin&Hfresh).
  split; [done|]. by exists fin.
Qed.

(** ** Masking a batch of known frames *)

Lemma zip_with_known (t : list (list R)) ss :
  length t = length ss → plain t →
  Forall (λ ft, is_known_frame_scalar ft = true) ss →
  zip_with mul_frame t (known_flags ss) = t.
Proof.
  intros Hlen Hplain Hknown. apply list_eq. intros i.
  destruct (t !! i) as [row|] eqn:Hrow.
  - destruct (lookup_lt_is_Some_2 ss i) as [ft Hft].
    { rewrite <- Hlen. by eapply lookup_lt_Some. }
    rewrite (masked_frames ss t _ i ft row Hlen Hplain
               (broadcast_mul_same_length _ _
                  (eq_trans Hlen (eq_sym (length_known_flags ss)))) Hft Hrow).
    rewrite Forall_forall in Hknown.
    rewrite (Hknown ft); [done|]. apply list_elem_of_lookup. eauto.
  - apply lookup_ge_None. rewrite length_zip_with.
    apply lookup_ge_None in Hrow. lia.
Qed.

(** X2.  On a collated batch with plain entries whose frames are all
    known, the copy that [_get_eval_frame_data] returns reads exactly as
    the input does: the masking changes no value. *)
Theorem masking_known_batch_is_identity σ l attrs ss :
  batch_shaped σ l attrs ss →
  (∀ k t, k ∈ masked_fields → field_tensor σ attrs k t → plain t) →
  Forall (λ ft, is_known_frame_scalar ft = true) ss →
  ∃ l1 σ' fin,
    _get_eval_frame_data l σ = (Ret l1, σ') ∧
    heap σ' !! l1 = Some (OFrame fin) ∧
    view (heap σ') fin = view (heap σ) attrs.
Proof.
  intros Hshaped Hplain Hknown.
  destruct (wp_elim _ _ _
    (get_eval_frame_data_spec σ l attrs ss (batch_shaped_ok _ _ _ _ Hshaped)))
    as (o&σ'&Hrun&_&l1&fin&->&_&Hl1&Hcopy).
  exists l1, σ', fin. split; [done|]. split; [done|].
  rewrite (view_eval_copy _ _ _ _ _ Hcopy).
  apply map_eq. intros k. unfold masked_view, view.
  rewrite map_lookup_imap, lookup_omap.
  destruct (attrs !! k) as [v|] eqn:Hk; [|done]. simpl.
  destruct (resolve_value (heap σ) v) as [rv|] eqn:Hrv; [|done]. simpl.
  case_bool_decide as Hmem; [|done].
  destruct (shaped_fields _ _ _ _ Hshaped k Hmem)
    as [Hnone|(t&(lv&Hlv&Ht)&Hlen)].
  - assert (v = VNone) as -> by congruence. simpl in Hrv. by injection Hrv as <-.
  - assert (v = VTensor lv) as -> by congruence. simpl in Hrv.
    rewrite Ht in Hrv. injection Hrv as <-. simpl.
    rewrite broadcast_mul_same_length by by rewrite length_known_flags.
    rewrite zip_with_known; [done..| |done].
    apply (Hplain k); [done|]. by exists lv.
Qed.

(** ** Batches that are rejected *)

Lemma missing_attribute_cases σ l attrs :
  heap σ !! l = Some (OFrame attrs) →
  live_tensors (heap σ) attrs →
  (attrs !! "frame_type" = None →
   (_get_eval_frame_data l σ).1 = Raise (AttributeError "frame_type")) ∧
  (∀ ss, attrs !! "frame_type" = Some (VStrs ss) →
         attrs !! "image_rgb" = None →
         (_get_eval_frame_data l σ).1 = Raise (AttributeError "image_rgb")).
Proof.
  intros Hl Hlive.
  assert (∀ Q : outcome loc → state → Prop,
    (∀ σ1, heap σ1 !! l = Some (OFrame attrs) →
       wp (frame_type <- getattr l "frame_type" ;;
           flags <- is_known_frame frame_type ;;
           image_rgb <- getattr l "image_rgb" ;;
           is_known <- type_as flags image_rgb ;;
           ret 0%nat) (λ o σ2, ∀ e, o = Raise e → Q (Raise e) σ2) σ1 ∧
       wp (frame_type <- getattr l "frame_type" ;;
           flags <- is_known_frame frame_type ;;
           image_rgb <- getattr l "image_rgb" ;;
           is_known <- type_as flags image_rgb ;;
           ret 0%nat) (λ o _, ∃ e, o = Raise e) σ1) →
    wp (_get_eval_frame_data l) Q σ) as Hcut.
  { intros Q HQ. unfold _get_eval_frame_data. apply wp_bind.
    eapply wp_mono; [by apply deepcopy_spec|].
    intros o σ1 (H01&l1&attrs1&->&_&_&_). simpl.
    destruct (HQ σ1 (ext_lookup _ _ _ _ H01 Hl)) as [H1 H2].
    revert H1 H2. unfold wp, bind.
    destruct (getattr l "frame_type" σ1) as [[ft|e] σ2]; simpl;
      [|by intros H _; apply H].
    destruct (is_known_frame ft σ2) as [[flags|e] σ3]; simpl;
      [|by intros H _; apply H].
    destruct (getattr l "image_rgb" σ3) as [[img|e] σ4]; simpl;
      [|by intros H _; apply H].
    destruct (type_as flags img σ4) as [[ik|e] σ5]; simpl;
      [|by intros H _; apply H].
    by intros _ [e He]. }
  split.
  - intros Hft.
    apply (Hcut (λ o _, o = Raise (AttributeError "frame_type"))).
    intros σ1 Hl1. split; apply wp_bind; unfold getattr; apply wp_bind;
      (eapply wp_read_frame_ok; [done|]); simpl; rewrite Hft;
      apply wp_raise; simpl; [by intros ? [= <-]|by eexists].
  - intros ss Hft Himg.
    apply (Hcut (λ o _, o = Raise (AttributeError "image_rgb"))).
    intros σ1 Hl1. split;
      (apply wp_bind; eapply wp_getattr_ok; [done..|]; simpl;
       apply wp_bind, wp_ret; simpl;
       apply wp_bind; unfold getattr; apply wp_bind;
       (eapply wp_read_frame_ok; [done|]); simpl; rewrite Himg;
       apply wp_raise; simpl); [by intros ? [= <-]|by eexists].
Qed.

(** X3.  A frame-data object without a [frame_type] attribute, or with a
    list of frame types but without an [image_rgb] attribute, makes the
    call raise [AttributeError] for that attribute: line 157 reads both
    before the loop. *)
Theorem masking_needs_its_attributes σ l attrs k :
  heap σ !! l = Some (OFrame attrs) →
  live_tensors (heap σ) attrs →
  (k = "frame_type" ∧ attrs !! "frame_type" = None) ∨
  (k = "image_rgb" ∧ (∃ ss, attrs !! "frame_type" = Some (VStrs ss)) ∧
   attrs !! "image_rgb" = None) →
  (_get_eval_frame_data l σ).1 = Raise (AttributeError k).
Proof.
  intros Hl Hlive Hk.
  destruct (missing_attribute_cases σ l attrs Hl Hlive) as [H1 H2].
  destruct Hk as [[-> Hft]|(->&[ss Hft]&Himg)]; [by apply H1|by eapply H2].
Qed.

Lemma broadcast_mul_mismatch (t : list (list R)) ik :
  length t ≠ length ik → length ik ≠ 1%nat → length t ≠ 1%nat →
  broadcast_mul t ik = Raise RuntimeError.
Proof.
  intros Hne Hik Ht. unfold broadcast_mul. case_decide; [done|].
  destruct ik as [|? [|? ?]], t as [|? [|? ?]]; simpl in *; done.
Qed.

(** X4.  For an image of rank 4, of shape (M,C,H,W): when its number M of
    frames differs from the number of frame types and neither number is 1,
    the product with the flags does not broadcast and the call raises. *)
Theorem masking_rejects_ragged_batch σ l attrs ss li t :
  heap σ !! l = Some (OFrame attrs) →
  live_tensors (heap σ) attrs →
  attrs !! "frame_type" = Some (VStrs ss) →
  attrs !! "image_rgb" = Some (VTensor li) →
  heap σ !! li = Some (OTensor t) →
  length t ≠ length ss → length ss ≠ 1%nat → length t ≠ 1%nat →
  (_get_eval_frame_data l σ).1 = Raise RuntimeError.
Proof.
  intros Hl Hlive Hft Himg Hli Hne Hss Ht.
  assert (wp (_get_eval_frame_data l) (λ o _, o = Raise RuntimeError) σ) as H;
    [|exact H].
  unfold _get_eval_frame_data.
  apply wp_bind. eapply wp_mono; [by apply deepcopy_spec|].
  intros o σ1 (H01&l1&attrs1&->&_&Hl1&Hcopied). simpl.
  apply wp_bind. eapply wp_getattr_ok; [by eapply ext_lookup|done|]. simpl.
  apply wp_bind, wp_ret. simpl.
  apply wp_bind. eapply wp_getattr_ok; [by eapply ext_lookup|done|]. simpl.
  apply wp_bind. unfold type_as. apply wp_bind.
  eapply wp_read_tensor_ok; [by eapply ext_lookup|]. simpl.
  apply wp_ret. simpl. fold (known_flags ss).
  specialize (Hcopied "image_rgb"). rewrite Himg in Hcopied.
  destruct Hcopied as (v'&Hv'&l'&t0&->&_&Ht0&Hl').
  assert (t0 = t) as -> by congruence.
  apply wp_bind. unfold mask_field at 1. apply wp_bind, wp_bind.
  eapply wp_getattr_ok; [done..|]. simpl. apply wp_bind, wp_bind.
  unfold tensor_clone. apply wp_bind. eapply wp_read_tensor_ok; [done|].
  simpl. apply wp_alloc. intros lc Hlc.
  unfold tensor_mul. apply wp_bind, wp_bind.
  eapply wp_read_tensor_ok; [simpl; by rewrite lookup_insert_eq|]. simpl.
  apply wp_bind, wp_lift.
  rewrite broadcast_mul_mismatch; [done|by rewrite length_known_flags..|done].
Qed.

(** ** Components of the state that a computation leaves alone *)

Lemma stable_bind {X} (f : state → X) {A B} (m : M A) (k : A → M B) :
  stable f m → (∀ a, stable f (k a)) → stable f (bind m k).
Proof.
  intros Hm Hk σ. unfold bind. specialize (Hm σ).
  destruct (m σ) as [[a|e] σ1]; simpl in *; [|done].
  by rewrite Hk.
Qed.

Lemma stable_same {X} (f : state → X) {A} (m : M A) :
  (∀ σ, (m σ).2 = σ) → stable f m.
Proof. intros Hm σ. by rewrite Hm. Qed.

Lemma stable_ret {X} (f : state → X) {A} (a : A) : stable f (ret a).
Proof. done. Qed.

Lemma stable_raise {X} (f : state → X) {A} e : stable f (raise e : M A).
Proof. done. Qed.

Lemma stable_getitem {X} (f : state → X) {A} (d : gmap string A) k :
  stable f (getitem d k).
Proof. unfold getitem. by destruct (d !! k). Qed.

Lemma stable_for_each {X} (f : state → X) {A} (g : A → M unit) xs :
  (∀ x, stable f (g x)) → stable f (for_each g xs).
Proof.
  intros Hg. induction xs as [|x xs IH]; simpl; [done|].
  apply stable_bind; [apply Hg|]. by intros _.
Qed.

Lemma json_value_same res σ : (json_value res σ).2 = σ.
Proof. by destruct (json_value_inv res σ) as [? _]. Qed.

Lemma stable_files_grows {A} (m : M A) : grows m → stable files m.
Proof. intros Hm σ. by destruct (Hm σ) as (_&_&?&_). Qed.

Lemma stable_files_emit e : stable files (emit e).
Proof. done. Qed.

Lemma stable_files_call {A} (f : World → answer A * World) :
  stable files (call f).
Proof. intros σ. unfold call. by destruct (f (world σ)) as [[a|s] w]. Qed.

Lemma stable_heap_emit e : stable heap (emit e).
Proof. done. Qed.

Lemma stable_heap_call {A} (f : World → answer A * World) :
  stable heap (call f).
Proof. intros σ. unfold call. by destruct (f (world σ)) as [[a|s] w]. Qed.

Lemma stable_heap_write_file path content :
  stable heap (write_file path content).
Proof. done. Qed.

Lemma stable_files_run_batch self cams dev lp l :
  stable files (run_batch self cams dev lp l).
Proof.
  unfold run_batch. cbv zeta.
  apply stable_bind; [apply stable_files_grows, grows_frame_to|]. intros fd.
  apply stable_bind; [apply stable_files_grows, grows_get_eval_frame_data|].
  intros fe.
  apply stable_bind; [apply stable_files_grows, grows_frame_view|]. intros kw.
  apply stable_bind; [apply stable_files_emit|]. intros _.
  apply stable_bind; [apply stable_files_call|]. intros preds.
  apply stable_bind; [apply stable_getitem|]. intros render.
  apply stable_bind; [apply stable_files_grows, grows_frame_view|]. intros v.
  apply stable_bind; [apply stable_files_emit|]. intros _.
  apply stable_files_call.
Qed.

Lemma stable_files_eval_loop self cams dev lp dl : ∀ acc,
  stable files (eval_loop self cams dev lp dl acc).
Proof.
  induction dl as [|l dl IH]; intros acc; simpl; [done|].
  apply stable_bind; [apply stable_files_run_batch|]. intros r. apply IH.
Qed.

(** Nothing before the dump writes a file. *)
Lemma stable_files_run_to_results self dl cams dev :
  stable files (run_to_results self dl cams dev).
Proof.
  unfold run_to_results. cbv zeta.
  repeat first
    [ apply stable_files_eval_loop
    | apply stable_files_emit
    | apply stable_files_call
    | apply stable_getitem
    | apply stable_ret
    | apply stable_files_grows, grows_alloc_records
    | apply stable_files_grows, grows_json_value
    | by intros σ
    | apply stable_bind; [|intros ?] ].
Qed.

(** ** What the dump does to the store *)

Lemma dump_heap_spec epoch exp_dir res ds σ :
  records_at (heap σ) res ds →
  wp (_dump_to_json epoch exp_dir res) (λ _ σ', tagged_store epoch res σ σ') σ.
Proof.
  intros Hrec. unfold _dump_to_json. apply wp_bind.
  assert (wp
    match epoch with
    | Some e =>
        items <- read_list res ;;
        for_each (λ r, dict_setitem r "eval_epoch" (JInt e)) items
    | None => ret ()
    end
    (λ o σ', o = Ret () ∧ tagged_store epoch res σ σ') σ) as Htag.
  { destruct epoch as [e|]; [|by apply wp_ret].
    pose proof Hrec as (items&Hres&_).
    destruct (records_at_items _ _ _ _ Hrec Hres) as [Hitems Hnot].
    apply wp_bind. eapply wp_read_list_ok; [done|]. simpl.
    eapply wp_mono.
    { apply tag_loop_spec. apply Forall_forall. intros r Hr.
      apply list_elem_of_lookup in Hr as [i Hi].
      destruct (Forall2_lookup_l _ _ _ _ _ Hitems Hi) as (d&_&Hd). eauto. }
    intros o σ' (->&_&_&_&Hout&Hin). split; [done|]. by exists items. }
  eapply wp_mono; [exact Htag|].
  intros o σ1 [-> Hstore]. simpl.
  assert (∀ {A} (m : M A), stable heap m →
            wp m (λ _ σ', tagged_store epoch res σ σ') σ1) as Hrest.
  { intros A m Hm. unfold wp. unfold tagged_store in *. rewrite Hm.
    exact Hstore. }
  apply Hrest.
  apply stable_bind; [apply stable_heap_emit|]. intros _.
  destruct exp_dir as [d|]; [|apply stable_raise].
  cbv zeta.
  apply stable_bind; [apply stable_heap_call|]. intros _.
  apply stable_bind; [apply stable_same, json_value_same|]. intros content.
  apply stable_bind; [apply stable_heap_emit|]. intros _.
  apply stable_heap_write_file.
Qed.

Lemma tagged_idem epoch (ds : list (gmap string (jvalue R))) :
  tagged epoch (tagged epoch ds) = tagged epoch ds.
Proof.
  destruct epoch as [e|]; [|done]. unfold tagged.
  rewrite <- list_fmap_compose. apply list_fmap_ext. intros i d _. simpl.
  by rewrite insert_insert_eq.
Qed.

Lemma tagged_last e1 e2 (ds : list (gmap string (jvalue R))) :
  tagged (Some e2) (tagged (Some e1) ds) = tagged (Some e2) ds.
Proof.
  unfold tagged. rewrite <- list_fmap_compose. apply list_fmap_ext.
  intros i d _. simpl. by rewrite insert_insert_eq.
Qed.

Lemma records_at_dict (h : gmap loc (obj R)) res ds items r :
  records_at h res ds → h !! res = Some (OList items) → r ∈ items →
  ∃ d, h !! r = Some (ODict d) ∧ d ∈ ds.
Proof.
  intros Hrec Hres Hr.
  destruct (records_at_items _ _ _ _ Hrec Hres) as [Hitems _].
  apply list_elem_of_lookup in Hr as [i Hi].
  destruct (Forall2_lookup_l _ _ _ _ _ Hitems Hi) as (d&Hd&Hrd).
  exists d. split; [done|]. apply list_elem_of_lookup. eauto.
Qed.

(** X5.  Whatever its outcome, [_dump_to_json] creates and removes no
    object, writes to no object other than the result records, and in a
    record changes no field other than [eval_epoch]. *)
Theorem dump_changes_only_epoch_field epoch exp_dir res ds σ o σ' :
  records_at (heap σ) res ds →
  _dump_to_json epoch exp_dir res σ = (o, σ') →
  dom (heap σ') = dom (heap σ) ∧
  (∀ l ob, heap σ !! l = Some ob → (∀ d, ob ≠ ODict d) →
           heap σ' !! l = Some ob) ∧
  (∀ r d, heap σ !! r = Some (ODict d) →
     ∃ d', heap σ' !! r = Some (ODict d') ∧
           ∀ key, key ≠ "eval_epoch" → d' !! key = d !! key).
Proof.
  intros Hrec Hrun.
  pose proof (wp_run _ _ _ _ _ (dump_heap_spec epoch exp_dir res ds σ Hrec) Hrun)
    as Hstore.
  destruct epoch as [e|]; simpl in Hstore.
  2:{ rewrite Hstore. repeat split; [done|]. intros r d Hr. by exists d. }
  destruct Hstore as (items&Hres&Hout&Hin).
  assert (∀ r, r ∈ items → ∃ d, heap σ !! r = Some (ODict d)) as Hdict.
  { intros r Hr. destruct (records_at_dict _ _ _ _ _ Hrec Hres Hr) as (d&?&_).
    eauto. }
  repeat split.
  - apply set_eq. intros l. rewrite !elem_of_dom.
    destruct (decide (l ∈ items)) as [Hl|Hl]; [|by rewrite Hout].
    destruct (Hdict l Hl) as [d Hd]. rewrite Hd, (Hin l d Hl Hd).
    split; eauto.
  - intros l ob Hl Hob. rewrite Hout; [done|]. intros Hmem.
    destruct (Hdict l Hmem) as [d Hd]. apply (Hob d). congruence.
  - intros r d Hr. destruct (decide (r ∈ items)) as [Hmem|Hmem].
    + eexists. split; [by apply Hin|]. intros key Hkey.
      by rewrite lookup_insert_ne.
    + exists d. split; [by rewrite Hout|done].
Qed.

(** X6.  A dump that returned, run a second time with the same arguments,
    changes neither the store nor the files, whatever its outcome. *)
Theorem dump_again_changes_nothing epoch exp_dir res ds σ σ1 o2 σ2 :
  records_at (heap σ) res ds →
  _dump_to_json epoch exp_dir res σ = (Ret (), σ1) →
  _dump_to_json epoch exp_dir res σ1 = (o2, σ2) →
  heap σ2 = heap σ1 ∧ files σ2 = files σ1.
Proof.
  intros Hrec Hrun1 Hrun2.
  destruct (wp_run _ _ _ _ _ (dump_to_json_spec epoch exp_dir res ds σ Hrec) Hrun1)
    as [Hrec1 Hpost1].
  destruct (wp_run _ _ _ _ _
    (dump_to_json_spec epoch exp_dir res _ σ1 Hrec1) Hrun2) as [_ Hpost2].
  pose proof (wp_run _ _ _ _ _
    (dump_heap_spec epoch exp_dir res _ σ1 Hrec1) Hrun2) as Hstore.
  split.
  - destruct epoch as [e|]; simpl in Hstore; [|done].
    destruct Hstore as (items&Hres&Hout&Hin).
    apply map_eq. intros l.
    destruct (decide (l ∈ items)) as [Hl|Hl]; [|by apply Hout].
    destruct (records_at_dict _ _ _ _ _ Hrec1 Hres Hl) as (d&Hd&Hmem).
    rewrite (Hin l d Hl Hd), Hd. do 2 f_equal.
    unfold tagged in Hmem. apply list_elem_of_fmap in Hmem as (d0&->&_).
    by rewrite insert_insert_eq.
  - destruct exp_dir as [d|]; [|by destruct Hpost1].
    cbv zeta in Hpost1, Hpost2.
    destruct ((open_for_writing (os_path_join d "results_test.json")
                 (world σ)).1); [|by destruct Hpost1].
    destruct Hpost1 as [_ Hf1].
    destruct ((open_for_writing (os_path_join d "results_test.json")
                 (world σ1)).1); destruct Hpost2 as [_ Hf2]; [|done].
    rewrite Hf2, tagged_idem, Hf1. by rewrite insert_insert_eq.
Qed.

(** X7.  After two dumps of the same results, each with an epoch and
    whatever their outcomes, the records are the original ones with
    [eval_epoch] set to the second epoch: a later dump overwrites the tag
    of an earlier one. *)
Theorem later_dump_overwrites_epoch e1 e2 dir1 dir2 res ds σ o1 σ1 o2 σ2 :
  records_at (heap σ) res ds →
  _dump_to_json (Some e1) dir1 res σ = (o1, σ1) →
  _dump_to_json (Some e2) dir2 res σ1 = (o2, σ2) →
  records_at (heap σ2) res (insert "eval_epoch" (JInt e2) <$> ds).
Proof.
  intros Hrec Hrun1 Hrun2.
  destruct (wp_run _ _ _ _ _
    (dump_to_json_spec (Some e1) dir1 res ds σ Hrec) Hrun1) as [Hrec1 _].
  destruct (wp_run _ _ _ _ _
    (dump_to_json_spec (Some e2) dir2 res _ σ1 Hrec1) Hrun2) as [Hrec2 _].
  by rewrite tagged_last in Hrec2.
Qed.

(** X8.  When the file does not open, [_dump_to_json] raises the exception
    of [open] unchanged and writes no file, but the records are tagged
    already. *)
Theorem dump_open_failure epoch d res ds σ s :
  records_at (heap σ) res ds →
  (open_for_writing (os_path_join d "results_test.json") (world σ)).1
    = Fails s →
  ∃ σ', _dump_to_json epoch (Some d) res σ = (Raise (ExternalError s), σ') ∧
        files σ' = files σ ∧
        records_at (heap σ') res (tagged epoch ds).
Proof.
  intros Hrec Hopen.
  destruct (wp_elim _ _ _ (dump_to_json_spec epoch (Some d) res ds σ Hrec))
    as (o&σ'&Hrun&Hrec'&Hpost).
  cbv zeta in Hpost. rewrite Hopen in Hpost. destruct Hpost as [-> Hfiles].
  by exists σ'.
Qed.

(** X9.  [run] leaves the files as they are when [dump_to_json] is false,
    when the evaluation before the dump raises, when [exp_dir] is [None],
    and when the file does not open: the evaluation writes no file, and
    the dump none before [open] has succeeded. *)
Theorem run_writes_nothing_before_open self dl cams dev dump exp_dir epoch σ o σ' :
  run self dl cams dev dump exp_dir epoch σ = (o, σ') →
  dump = false ∨
  (∃ e σ1, run_to_results self dl cams dev σ = (Raise e, σ1)) ∨
  exp_dir = None ∨
  (∃ st σ1 d s,
     run_to_results self dl cams dev σ = (Ret st, σ1) ∧
     exp_dir = Some d ∧
     (open_for_writing (os_path_join d "results_test.json") (world σ1)).1
       = Fails s) →
  files σ' = files σ.
Proof.
  intros Hrun Hcase. rewrite run_unfold in Hrun.
  pose proof (stable_files_run_to_results self dl cams dev σ) as Hfiles.
  destruct (run_to_results self dl cams dev σ) as [[[cr res]|err] σ1] eqn:Hpre;
    simpl in Hfiles; [|by injection Hrun as <- <-].
  destruct (wp_run _ _ _ _ _ (run_to_results_records self dl cams dev σ) Hpre
              cr res eq_refl) as (Hcr&ds&Hrec).
  simpl in Hrun. unfold getitem in Hrun. rewrite Hcr in Hrun.
  destruct dump; [|by injection Hrun as <- <-].
  destruct (wp_elim _ _ _ (dump_to_json_spec epoch exp_dir res ds σ1 Hrec))
    as (o1&σ2&Hdump&_&Hpost).
  rewrite Hdump in Hrun. rewrite <- Hfiles.
  destruct Hcase as [?|[(e&σe&?)|[->|(st&σs&d&s&Hst&->&Hopen)]]];
    [done|done| |].
  - destruct Hpost as [-> Hf]. by injection Hrun as <- <-.
  - injection Hst as <- <-. cbv zeta in Hpost. rewrite Hopen in Hpost.
    destruct Hpost as [-> Hf]. by injection Hrun as <- <-.
Qed.

(** ** The shape of the call log *)

Lemma wp_silent {A} (m : M A) (Q : outcome A → state → Prop) σ :
  stable log m → (∀ o σ', log σ' = log σ → Q o σ') → wp m Q σ.
Proof. intros Hm HQ. apply HQ, Hm. Qed.

Lemma stable_log_grows {A} (m : M A) : grows m → stable log m.
Proof. intros Hm σ. by destruct (Hm σ) as (_&?&_). Qed.

Lemma stable_log_call {A} (f : World → answer A * World) : stable log (call f).
Proof. intros σ. unfold call. by destruct (f (world σ)) as [[a|s] w]. Qed.

Lemma calls_app p es1 es2 : calls p (es1 ++ es2) = (calls p es1 + calls p es2)%nat.
Proof. unfold calls. by rewrite List.filter_app, length_app. Qed.

Lemma loop_log_nil n : loop_log n false [].
Proof. split; [constructor|]. unfold calls. simpl. repeat split; first [lia|done]. Qed.

Lemma run_batch_log self cams dev lp l σ :
  wp (run_batch self cams dev lp l)
     (λ o σ', ∃ es, log σ' = log σ ++ es ∧ loop_log 1 (is_ret o) es) σ.
Proof.
  assert (∀ σ' : state, log σ' = log σ →
            ∃ es, log σ' = log σ ++ es ∧ loop_log 1 false es) as Hnone.
  { intros σ' Hlog. exists []. rewrite app_nil_r. split; [done|].
    apply loop_log_nil. }
  unfold run_batch. cbv zeta.
  apply wp_bind, wp_silent; [apply stable_log_grows, grows_frame_to|].
  intros [fd|e] σ1 H1; simpl in *; [|by apply Hnone].
  apply wp_bind, wp_silent;
    [apply stable_log_grows, grows_get_eval_frame_data|].
  intros [fe|e] σ2 H2; simpl in *; [|apply Hnone; congruence].
  apply wp_bind, wp_silent; [apply stable_log_grows, grows_frame_view|].
  intros [kw|e] σ3 H3; simpl in *; [|apply Hnone; congruence].
  apply wp_bind, wp_emit. simpl.
  assert (∀ kw' (σ' : state), log σ' = log σ3 ++ [EvModelCall kw' EVALUATION] →
            ∃ es, log σ' = log σ ++ es ∧ loop_log 1 false es) as Hone.
  { intros kw' σ' Hlog. exists [EvModelCall kw' EVALUATION].
    split; [rewrite Hlog; congruence|].
    split; [by repeat constructor|]. unfold calls. simpl.
    repeat split; first [lia|done]. }
  apply wp_bind, wp_silent; [apply stable_log_call|].
  intros [preds|e] σ4 H4; simpl in *; [|by eapply Hone].
  apply wp_bind, wp_silent; [apply stable_getitem|].
  intros [render|e] σ5 H5; simpl in *; [|eapply Hone; by rewrite H5].
  apply wp_bind, wp_silent; [apply stable_log_grows, grows_frame_view|].
  intros [seen|e] σ6 H6; simpl in *; [|eapply Hone; by rewrite H6, H5].
  apply wp_bind, wp_emit. simpl.
  apply wp_silent; [apply stable_log_call|].
  intros o σ7 H7. simpl in H7. eexists. split.
  { rewrite H7, H6, H5, H4. simpl. rewrite H3, H2, H1.
    rewrite <- app_assoc. reflexivity. }
  split; [by repeat constructor|]. unfold calls. simpl.
  repeat split; first [lia|done].
Qed.

Lemma eval_loop_log self cams dev lp dl : ∀ acc σ,
  wp (eval_loop self cams dev lp dl acc)
     (λ o σ', ∃ es, log σ' = log σ ++ es ∧
        loop_log (length dl) (is_ret o) es ∧
        ∀ rs, o = Ret rs → length rs = (length acc + length dl)%nat) σ.
Proof.
  induction dl as [|l dl IH]; intros acc σ; simpl.
  - apply wp_ret. exists []. rewrite app_nil_r. split; [done|]. split.
    + split; [constructor|]. unfold calls. simpl.
      repeat split; first [lia|done].
    + intros rs [= <-]. lia.
  - apply wp_bind. eapply wp_mono; [apply run_batch_log|].
    intros [r|e] σ1 (es1&Hlog1&Hall1&Hle1&Hn1&Hdone1); simpl.
    2:{ exists es1. split; [done|]. split; [|done].
        repeat split; first [done|lia]. }
    destruct (Hdone1 eq_refl) as [HM1 HE1].
    eapply wp_mono; [apply IH|].
    intros o σ2 (es2&Hlog2&(Hall2&Hle2&Hn2&Hdone2)&Hlen).
    exists (es1 ++ es2). split; [by rewrite Hlog2, Hlog1, app_assoc|].
    split.
    + split; [by apply Forall_app|]. rewrite !calls_app.
      split; [lia|]. split; [lia|]. intros Hret.
      destruct (Hdone2 Hret). lia.
    + intros rs ->. rewrite (Hlen rs eq_refl), length_app. simpl. lia.
Qed.

Lemma run_to_results_log self dl cams dev σ :
  wp (run_to_results self dl cams dev)
     (λ o σ', ∃ es, log σ' = log σ ++ es ∧
        run_log self (length dl) dev (is_ret o) es) σ.
Proof.
  unfold run_to_results. cbv zeta.
  apply wp_bind, wp_emit. simpl.
  assert (∀ σ' : state, log σ' = log σ ++ [EvLpips "vgg" dev] →
            ∃ es, log σ' = log σ ++ es ∧
                  run_log self (length dl) dev false es) as Hfirst.
  { intros σ' Hlog. eexists. split; [done|]. by left. }
  apply wp_bind, wp_silent; [apply stable_log_call|].
  intros [lp0|e] σ1 H1; simpl in *; [|by apply Hfirst].
  apply wp_bind, wp_silent; [apply stable_log_call|].
  intros [lp|e] σ2 H2; simpl in *; [|apply Hfirst; congruence].
  apply wp_bind, wp_emit. simpl. apply wp_bind. unfold wp at 1. simpl.
  apply wp_bind, wp_emit. simpl.
  apply wp_bind. eapply wp_mono; [apply eval_loop_log|].
  intros o σ3 (es_loop&H3&Hloop&Hlen). simpl in H3.
  assert (log σ3 = log σ ++ [EvLpips "vgg" dev; EvModelEval;
            EvLogInfo "Evaluating model ..."] ++ es_loop) as H3'.
  { rewrite H3, H2, H1. simpl. by rewrite <- !app_assoc. }
  destruct o as [per_batch|e]; simpl.
  2:{ eexists. split; [exact H3'|]. right. left. split; [done|].
      by exists es_loop. }
  specialize (Hlen _ eq_refl). simpl in Hlen.
  apply wp_bind, wp_emit. simpl.
  assert (∀ (σ' : state) b rest,
    log σ' = (log σ3 ++ [EvSummarize per_batch (is_multisequence self)
                           (camera_difficulty_bin_breaks self)]) ++ rest →
    (b = false ∧ rest = []) ∨ (∃ shown, rest = [EvPrettyPrint shown]) →
    ∃ es, log σ' = log σ ++ es ∧ run_log self (length dl) dev b es) as Hsum.
  { intros σ' b rest Hlog Hrest. eexists. split.
    { rewrite Hlog, H3'. rewrite <- !app_assoc. reflexivity. }
    right. right. exists es_loop, per_batch, rest.
    split; [done|]. split; [done|]. split; [|done]. done. }
  apply wp_bind, wp_silent; [apply stable_log_call|].
  intros [summary|e] σ4 H4; simpl in *;
    [|apply (Hsum _ false []); [by rewrite app_nil_r|by left]].
  apply wp_bind, wp_silent; [apply stable_getitem|].
  intros [records|e] σ5 H5; simpl in *;
    [|apply (Hsum _ false []); [rewrite app_nil_r; congruence|by left]].
  apply wp_bind, wp_silent; [apply stable_log_grows, grows_alloc_records|].
  intros [res|e] σ6 H6; simpl in *;
    [|apply (Hsum _ false []); [rewrite app_nil_r; congruence|by left]].
  apply wp_bind, wp_silent; [apply stable_getitem|].
  intros [res'|e] σ7 H7; simpl in *;
    [|apply (Hsum _ false []); [rewrite app_nil_r; congruence|by left]].
  apply wp_bind, wp_silent; [apply stable_log_grows, grows_json_value|].
  intros [shown|e] σ8 H8; simpl in *;
    [|apply (Hsum _ false []); [rewrite app_nil_r; congruence|by left]].
  apply wp_bind, wp_emit. simpl.
  apply wp_bind, wp_silent; [apply stable_log_call|].
  intros [[]|e] σ9 H9; simpl.
  - apply wp_ret. apply (Hsum _ true [EvPrettyPrint shown]); [|by eauto].
    rewrite H9. simpl. congruence.
  - apply (Hsum _ false [EvPrettyPrint shown]); [|by eauto].
    rewrite H9. simpl. congruence.
Qed.

Lemma calls_cons_false p e es : p e = false → calls p (e :: es) = calls p es.
Proof. intros He. unfold calls. simpl. by rewrite He. Qed.

Lemma calls_nil p : calls p [] = 0%nat.
Proof. done. Qed.

Ltac calls_tac :=
  cbn [app];
  repeat (rewrite calls_cons_false by done);
  rewrite ?calls_app;
  repeat (rewrite calls_cons_false by done);
  rewrite ?calls_nil.

Lemma summarize_not_loop_event es pb ms br :
  Forall (λ e, is_model_call e || is_eval_batch_call e = true) es →
  EvSummarize pb ms br ∉ es.
Proof.
  intros Hall Hin. rewrite Forall_forall in Hall. by apply Hall in Hin.
Qed.




(** ** The model is never shown an unknown frame *)

Lemma logs_refl P σ : logs P σ σ.
Proof. exists []. by rewrite app_nil_r. Qed.

Lemma logs_same P (σ σ' : state) : log σ' = log σ → logs P σ σ'.
Proof. intros Hlog. exists []. by rewrite app_nil_r. Qed.

Lemma logs_trans P σ1 σ2 σ3 : logs P σ1 σ2 → logs P σ2 σ3 → logs P σ1 σ3.
Proof.
  intros (es&H1&Hes) (es'&H2&Hes'). exists (es ++ es').
  split; [by rewrite H2, H1, app_assoc|by apply Forall_app].
Qed.

Lemma wp_logs_bind P (I J : state → Prop) {A B} (m : M A) (k : A → M B) σ :
  (∀ σ1, I σ1 → J σ1) →
  wp m (λ _ σ1, logs P σ σ1 ∧ I σ1) σ →
  (∀ a σ1, I σ1 → wp (k a) (λ _ σ', logs P σ1 σ' ∧ J σ') σ1) →
  wp (bind m k) (λ _ σ', logs P σ σ' ∧ J σ') σ.
Proof.
  intros HIJ Hm Hk. apply wp_bind. eapply wp_mono; [exact Hm|].
  intros [a|e] σ1 [Hl HI]; simpl; [|by split; [|apply HIJ]].
  eapply wp_mono; [by apply Hk|]. intros o σ2 [Hl' HJ].
  split; [by eapply logs_trans|done].
Qed.

Lemma wp_logs_quiet P σ0 {A} (m : M A) σ :
  emits P m → stable heap m → heap σ0 ⊆ heap σ →
  wp m (λ _ σ1, logs P σ σ1 ∧ heap σ0 ⊆ heap σ1) σ.
Proof.
  intros Hm Hheap H0. split; [apply Hm|]. unfold stable in Hheap.
  by rewrite Hheap.
Qed.

Lemma stable_heap_frame_view l : stable heap (frame_view l).
Proof.
  apply stable_same. intros σ. unfold frame_view, bind, read_frame.
  by destruct (heap σ !! l) as [[]|].
Qed.

Lemma run_batch_masked self cams dev lp dl l σ0 σ attrs ss :
  l ∈ dl → heap σ0 ⊆ heap σ → batch_ok σ0 l attrs ss →
  wp (run_batch self cams dev lp l)
     (λ _ σ', logs (masked_calls σ0 dl) σ σ' ∧ heap σ0 ⊆ heap σ') σ.
Proof.
  intros Hmem Hsub Hok.
  assert (heap σ !! l = Some (OFrame attrs)) as Hl.
  { eapply lookup_weaken; [apply (ok_frame _ _ _ _ Hok)|done]. }
  unfold run_batch. apply wp_bind. unfold frame_to.
  apply wp_bind. eapply wp_read_frame_ok; [done|]. simpl.
  apply wp_alloc. intros f Hf.
  set (σ1 := with_heap (insert f (OFrame attrs)) σ).
  assert (heap σ ⊆ heap σ1) as H1 by by apply insert_subseteq.
  assert (heap σ0 ⊆ heap σ1) as H01 by by etrans.
  assert (batch_ok σ1 f attrs ss) as Hok1.
  { eapply batch_ok_mono; [exact H01| |done]. simpl.
    by rewrite lookup_insert_eq. }
  apply wp_bind. eapply wp_mono; [by apply get_eval_frame_data_spec|].
  intros o σ2 ((H12&Hlog2&_)&l1&fin&->&_&Hl1&Hcopy). simpl.
  assert (heap σ0 ⊆ heap σ2) as H02 by by etrans.
  apply wp_bind. eapply wp_frame_view_ok; [done|]. simpl.
  rewrite (view_eval_copy _ _ _ _ _ Hcopy).
  rewrite (view_ext (heap σ0) (heap σ1)) by (done || apply Hok).
  cbv zeta.
  eapply wp_mono with (Q := λ _ σ',
    logs (masked_calls σ0 dl) σ2 σ' ∧ heap σ0 ⊆ heap σ').
  2:{ intros o σ' [Hlogs ?]. split; [|done].
      eapply logs_trans; [|exact Hlogs]. by apply logs_same. }
  apply (wp_logs_bind _ (λ σ', heap σ0 ⊆ heap σ')); [done| |].
  { apply wp_logs_quiet; [|apply stable_heap_emit|done].
    apply emits_emit. simpl. split; [done|].
    exists l, attrs, ss. repeat split; try done; apply Hok. }
  intros _ σ3 H03.
  apply wp_logs_quiet; [|repeat first
    [ apply stable_heap_call | apply stable_heap_emit | apply stable_getitem
    | apply stable_heap_frame_view | apply stable_bind; [|intros ?] ]|done].
  repeat first
    [ solve [eauto with emits]
    | apply emits_emit; simpl; done
    | apply emits_bind; [|intros ?] ].
Qed.

Lemma eval_loop_masked self cams dev lp σ0 all dl : ∀ acc σ,
  dl ⊆ all → heap σ0 ⊆ heap σ →
  Forall (λ l, ∃ attrs ss, batch_ok σ0 l attrs ss) dl →
  wp (eval_loop self cams dev lp dl acc)
     (λ _ σ', logs (masked_calls σ0 all) σ σ' ∧ heap σ0 ⊆ heap σ') σ.
Proof.
  induction dl as [|l dl IH]; intros acc σ Hincl Hsub Hall; simpl.
  - apply wp_ret. split; [apply logs_refl|done].
  - apply Forall_cons in Hall as [(attrs&ss&Hok) Hall].
    apply (wp_logs_bind _ (λ σ', heap σ0 ⊆ heap σ')); [done| |].
    + eapply run_batch_masked; [|done..]. apply Hincl. by left.
    + intros r σ1 H1. apply IH; [|done..].
      intros x Hx. apply Hincl. by right.
Qed.

Lemma stable_heap_model_eval :
  stable heap (λ σ : state, (Ret (), with_world (model_eval (world σ)) σ)).
Proof. done. Qed.

Lemma emits_dump_events P epoch exp_dir results :
  (∀ msg, P (EvLogInfo msg)) → (∀ path content, P (EvJsonDump path content)) →
  emits P (_dump_to_json epoch exp_dir results).
Proof.
  intros Hinfo Hdump. unfold _dump_to_json. cbv zeta.
  repeat first
    [ solve [eauto with emits]
    | apply emits_emit; first [apply Hinfo|apply Hdump]
    | apply emits_for_each; intros ?
    | apply emits_bind; [|intros ?]
    | match goal with
      | |- emits _ (match ?x with _ => _ end) => destruct x
      end ].
Qed.

Lemma run_masked self dl cams dev dump exp_dir epoch σ :
  Forall (λ l, ∃ attrs ss, batch_ok σ l attrs ss) dl →
  wp (run self dl cams dev dump exp_dir epoch)
     (λ _ σ', logs (masked_calls σ dl) σ σ') σ.
Proof.
  intros Hall.
  assert (∀ {A} (m : M A) σa, emits (masked_calls σ dl) m →
    wp m (λ _ σ', logs (masked_calls σ dl) σa σ' ∧ True) σa) as Hquiet.
  { intros A m σa Hm. split; [apply Hm|done]. }
  eapply wp_mono with (Q := λ _ σ', logs (masked_calls σ dl) σ σ' ∧ True);
    [|by intros o σ' [? _]].
  unfold run. apply (wp_logs_bind _ (λ _, True)); [done| |].
  2:{ intros st σ1 _. apply Hquiet.
      apply emits_bind; [|intros; apply emits_getitem].
      destruct dump; [|apply emits_ret]. by apply emits_dump_events. }
  unfold run_to_results. cbv zeta.
  apply (wp_logs_bind _ (λ σ', heap σ ⊆ heap σ')); [done| |].
  { apply wp_logs_quiet; [by apply emits_emit|apply stable_heap_emit|done]. }
  intros _ σ1 H1.
  apply (wp_logs_bind _ (λ σ', heap σ ⊆ heap σ')); [done| |].
  { apply wp_logs_quiet; [apply emits_call|apply stable_heap_call|done]. }
  intros lp0 σ2 H2.
  apply (wp_logs_bind _ (λ σ', heap σ ⊆ heap σ')); [done| |].
  { apply wp_logs_quiet; [apply emits_call|apply stable_heap_call|done]. }
  intros lp σ3 H3.
  apply (wp_logs_bind _ (λ σ', heap σ ⊆ heap σ')); [done| |].
  { apply wp_logs_quiet; [by apply emits_emit|apply stable_heap_emit|done]. }
  intros _ σ4 H4.
  apply (wp_logs_bind _ (λ σ', heap σ ⊆ heap σ')); [done| |].
  { apply wp_logs_quiet;
      [apply emits_model_eval|apply stable_heap_model_eval|done]. }
  intros _ σ5 H5.
  apply (wp_logs_bind _ (λ σ', heap σ ⊆ heap σ')); [done| |].
  { apply wp_logs_quiet; [by apply emits_emit|apply stable_heap_emit|done]. }
  intros _ σ6 H6.
  apply (wp_logs_bind _ (λ σ', heap σ ⊆ heap σ')); [done| |].
  { by apply eval_loop_masked. }
  intros per_batch σ7 H7. apply Hquiet.
  repeat first
    [ solve [eauto with emits]
    | apply emits_emit; simpl; done
    | apply emits_bind; [|intros ?] ].
Qed.

Lemma zeros_all_zero (row : list R) : Forall (λ x, x = zero) (zeros row).
Proof. unfold zeros. apply Forall_fmap, Forall_forall. by intros x _. Qed.

(** The product with the flags, also when it broadcasts, is zero on every
    frame whose mark is unknown. *)
Lemma broadcast_unknown_zero (t t' : list (list R)) ss i ft row :
  broadcast_mul t (known_flags ss) = Ret t' → plain t →
  ss !! i = Some ft → is_known_frame_scalar ft = false →
  t' !! i = Some row → Forall (λ x, x = zero) row.
Proof.
  intros Hmul Hplain Hft Hunknown Hrow.
  pose proof (lookup_known_flags ss i ft Hft) as Hflag.
  rewrite Hunknown in Hflag.
  assert (∀ x, x ∈ t → mul_frame x zero = zeros x) as Hzero.
  { intros x Hx. apply mul_frame_zero. intros y Hy. by apply (Hplain x y). }
  revert Hmul Hflag. generalize (known_flags ss). intros ik Hmul Hflag.
  unfold broadcast_mul in Hmul. case_decide.
  - injection Hmul as <-. rewrite lookup_zip_with in Hrow.
    destruct (t !! i) as [x|] eqn:Hx; [|done]. simpl in Hrow.
    rewrite Hflag in Hrow. simpl in Hrow. injection Hrow as <-.
    rewrite Hzero by (apply list_elem_of_lookup; eauto).
    apply zeros_all_zero.
  - destruct ik as [|k0 [|k1 ik]].
    + done.
    + destruct i as [|i]; [|done]. injection Hflag as ->.
      injection Hmul as <-. rewrite list_lookup_fmap in Hrow.
      destruct (t !! 0%nat) as [x|] eqn:Hx; [|done].
      injection Hrow as <-.
      rewrite Hzero by (apply list_elem_of_lookup; eauto).
      apply zeros_all_zero.
    + destruct t as [|x [|y t]]; [done| |done].
      assert (t' = mul_frame x <$> k0 :: k1 :: ik) as -> by congruence.
      rewrite list_lookup_fmap, Hflag in Hrow.
      injection Hrow as <-. rewrite Hzero by by left.
      apply zeros_all_zero.
Qed.

Lemma masked_field_not_mode k : k ∈ masked_fields → k ≠ "evaluation_mode".
Proof.
  intros Hk ->. repeat (apply elem_of_cons in Hk as [Hk|Hk]; [done|]).
  by apply elem_of_nil in Hk.
Qed.


(** ** What [run] returns *)

Lemma alloc_dicts_spec (records : list (gmap string (jvalue R))) : ∀ σ,
  wp (map_m (λ d, alloc (ODict d)) records)
     (λ o σ', ext σ σ' ∧ ∃ items,
        o = Ret items ∧
        Forall2 (λ r d, heap σ' !! r = Some (ODict d)) items records) σ.
Proof.
  induction records as [|d records IH]; intros σ; simpl.
  - apply wp_ret. split; [apply ext_refl|]. by exists [].
  - apply wp_bind, wp_alloc. intros r Hr.
    apply wp_bind. eapply wp_mono; [apply IH|].
    intros o σ' (Hext&items&->&Hitems). simpl. apply wp_ret.
    split; [eapply ext_trans; [by apply ext_alloc|done]|].
    exists (r :: items). split; [done|]. constructor; [|done].
    eapply ext_lookup; [done|]. simpl. by rewrite lookup_insert_eq.
Qed.

Lemma alloc_records_spec (records : list (gmap string (jvalue R))) σ :
  wp (alloc_records records)
     (λ o σ', ∃ res, o = Ret res ∧ records_at (heap σ') res records) σ.
Proof.
  unfold alloc_records. apply wp_bind.
  eapply wp_mono; [apply alloc_dicts_spec|].
  intros o σ1 (_&items&->&Hitems). simpl.
  apply wp_alloc. intros res Hres. exists res. split; [done|].
  exists items. simpl. split; [by rewrite lookup_insert_eq|].
  eapply Forall2_impl; [exact Hitems|]. intros r d Hr. simpl in Hr.
  rewrite lookup_insert_ne; [done|]. congruence.
Qed.

(** A completed evaluation hands on the records that the summarizer gave
    under the key [results] for one result per batch. *)
Lemma run_to_results_summary self dl cams dev σ :
  wp (run_to_results self dl cams dev)
     (λ o σ1, ∀ cr res, o = Ret (cr, res) →
        cr !! "results" = Some res ∧
        ∃ per_batch w summary records,
          length per_batch = length dl ∧
          (summarize_nvs_eval_results per_batch (is_multisequence self)
             (camera_difficulty_bin_breaks self) w).1 = Answer summary ∧
          summary !! "results" = Some records ∧
          records_at (heap σ1) res records) σ.
Proof.
  unfold run_to_results. cbv zeta.
  apply wp_bind, wp_emit. simpl.
  apply wp_bind, wp_call; [|done]. intros lp0 w0 _. simpl.
  apply wp_bind, wp_call; [|done]. intros lp w1 _. simpl.
  apply wp_bind, wp_emit. simpl.
  apply wp_bind. unfold wp at 1. simpl.
  apply wp_bind, wp_emit. simpl.
  apply wp_bind. eapply wp_mono; [apply eval_loop_log|].
  intros [per_batch|e] σ1 (_&_&_&Hlen); simpl; [|done].
  specialize (Hlen _ eq_refl). simpl in Hlen.
  apply wp_bind, wp_emit. simpl.
  apply wp_bind, wp_call; [|done]. intros summary w2 Hsum. simpl.
  apply wp_bind. unfold getitem at 1.
  destruct (summary !! "results") as [records|] eqn:Hrecords;
    [|by apply wp_raise].
  apply wp_ret. simpl.
  apply wp_bind. eapply wp_mono; [apply alloc_records_spec|].
  intros o σ2 (res&->&Hrec). simpl.
  apply wp_bind. unfold getitem. rewrite lookup_singleton_eq.
  apply wp_ret. simpl.
  apply wp_bind. unfold wp at 1. rewrite (json_value_ok res records) by done.
  simpl. apply wp_bind, wp_emit. simpl.
  apply wp_bind, wp_call; [|done]. intros [] w3 _. simpl.
  apply wp_ret. intros cr res' [= <- <-].
  split; [by rewrite lookup_singleton_eq|].
  exists per_batch, (world σ1), summary, records.
  split; [done|]. split; [|done]. simpl in Hsum. by rewrite Hsum.
Qed.

(** X14.  When [run] returns, the list it returns holds the records that
    the summarizer, called on one result per batch, gave under the key
    [results]: as they are when [dump_to_json] is false, and with
    [eval_epoch] set to the epoch, if any, when it is true.  A summary
    without that key never leads to a return. *)
Theorem run_returns_summary_records self dl cams dev dump exp_dir epoch σ r σ' :
  run self dl cams dev dump exp_dir epoch σ = (Ret r, σ') →
  ∃ per_batch w summary records,
    length per_batch = length dl ∧
    (summarize_nvs_eval_results per_batch (is_multisequence self)
       (camera_difficulty_bin_breaks self) w).1 = Answer summary ∧
    summary !! "results" = Some records ∧
    records_at (heap σ') r (if dump then tagged epoch records else records).
Proof.
  intros Hrun. rewrite run_unfold in Hrun.
  destruct (run_to_results self dl cams dev σ) as [[[cr res]|err] σ1] eqn:Hpre;
    [|done].
  destruct (wp_run _ _ _ _ _ (run_to_results_summary self dl cams dev σ) Hpre
              cr res eq_refl) as (Hcr&pb&w&summary&records&Hlen&Hsum&Hkey&Hrec).
  exists pb, w, summary, records. repeat (split; [done|]).
  simpl in Hrun. unfold getitem in Hrun. rewrite Hcr in Hrun.
  destruct dump.
  - destruct (wp_elim _ _ _
      (dump_to_json_spec epoch exp_dir res records σ1 Hrec))
      as (o1&σ2&Hdump&Hrec2&_).
    rewrite Hdump in Hrun. destruct o1 as [[]|e1]; [|done].
    by injection Hrun as <- <-.
  - by injection Hrun as <- <-.
Qed.

End EvaluatorProofs.

(** * The properties on the concrete setting *)

Lemma Z_plain (t : list (list Z)) : plain t.
Proof. intros row x _ _. simpl. split; [apply Z.mul_0_r|apply Z.mul_1_r]. Qed.

Lemma demo_attrs_inv k v :
  demo_attrs !! k = Some v →
  (k, v) ∈ [("sequence_name", VStr "apple_1"); ("mask_crop", VNone);
            ("image_rgb", VTensor 1%nat); ("fg_probability", VTensor 2%nat);
            ("frame_type", VStrs demo_frame_type); ("depth_map", VNone)].
Proof.
  intros Hk. apply elem_of_map_to_list in Hk.
  by vm_compute (map_to_list demo_attrs) in Hk.
Qed.

Lemma demo_batch_shaped : batch_shaped demo_state 0%nat demo_attrs demo_frame_type.
Proof.
  split.
  - reflexivity.
  - intros k l Hk. apply demo_attrs_inv in Hk.
    repeat (apply elem_of_cons in Hk as [Hk|Hk];
            [injection Hk as -> ?; try discriminate; simplify_eq; eexists; reflexivity|]).
    by apply elem_of_nil in Hk.
  - reflexivity.
  - eexists. eexists. split; reflexivity.
  - intros k Hk.
    repeat (apply elem_of_cons in Hk as [->|Hk]);
      [right|left|right|left|by apply elem_of_nil in Hk]; try reflexivity;
      (eexists; split; [eexists; split; reflexivity|reflexivity]).
Qed.

Lemma masking_zeroes_unknown_frames_witness :
  batch_shaped demo_state 0%nat demo_attrs demo_frame_type ∧
  (∀ k t, k ∈ masked_fields → field_tensor demo_state demo_attrs k t → plain t) ∧
  ∃ l1 σ' fin,
    _get_eval_frame_data 0%nat demo_state = (Ret l1, σ') ∧
    heap σ' !! l1 = Some (OFrame fin) ∧
    ∀ k t, k ∈ masked_fields → field_tensor demo_state demo_attrs k t →
      ∃ t', field_tensor σ' fin k t' ∧
        ∀ i ft row, demo_frame_type !! i = Some ft → t !! i = Some row →
          t' !! i = Some (if demo_is_known ft then row else zeros row).
Proof.
  split; [exact demo_batch_shaped|].
  split; [intros k t _ _; exact (Z_plain t)|].
  exact (masking_zeroes_unknown_frames demo_state 0%nat demo_attrs
           demo_frame_type demo_batch_shaped
           (λ k t _ _, Z_plain t)).
Defined.

Lemma masking_leaves_input_unmodified_witness :
  let r := _get_eval_frame_data 0%nat demo_state in
  r = (r.1, r.2) ∧
  heap demo_state !! 0%nat = Some (OFrame demo_attrs) ∧
  heap r.2 !! 0%nat = Some (OFrame demo_attrs) ∧
  (∀ k t, field_tensor demo_state demo_attrs k t →
          field_tensor r.2 demo_attrs k t) ∧
  (∀ l0 ob, heap demo_state !! l0 = Some ob → heap r.2 !! l0 = Some ob).
Proof.
  intros r.
  assert (r = (r.1, r.2)) as Hr by (by destruct r).
  split; [exact Hr|]. split; [reflexivity|].
  exact (masking_leaves_input_unmodified demo_state 0%nat demo_attrs
           r.1 r.2 Hr eq_refl).
Defined.

Lemma demo_batch_ok : batch_ok demo_state 0%nat demo_attrs demo_frame_type.
Proof. apply batch_shaped_ok, demo_batch_shaped. Qed.

Lemma masking_touches_only_four_fields_witness :
  batch_ok demo_state 0%nat demo_attrs demo_frame_type ∧
  ∃ l1 σ' fin,
    _get_eval_frame_data 0%nat demo_state = (Ret l1, σ') ∧
    heap σ' !! l1 = Some (OFrame fin) ∧
    dom fin = dom demo_attrs ∧
    ∀ k, k ∉ masked_fields →
      match demo_attrs !! k with
      | None => fin !! k = None
      | Some v => ∃ v', fin !! k = Some v' ∧ same_value demo_state σ' v v'
      end.
Proof.
  split; [exact demo_batch_ok|].
  exact (masking_touches_only_four_fields demo_state 0%nat demo_attrs
           demo_frame_type demo_batch_ok).
Defined.

(** C9.  On the batch without an image, whose [image_rgb] is [None], the
    call does not return that field as [None]: it raises [TypeError]. *)
Theorem masking_raises_without_image :
  (_get_eval_frame_data 0%nat blind_state).1 = Raise TypeError.
Proof. by vm_compute. Qed.

Lemma demo_run_to_results_completes :
  let r := run_to_results demo_self [0%nat] (Some 5%nat) () demo_state in
  r = (Ret ({["results" := 13%nat]}, 13%nat), r.2).
Proof. by vm_compute. Qed.

Lemma dump_writes_tagged_records_witness :
  let r := run_to_results demo_self [0%nat] (Some 5%nat) () demo_state in
  r = (Ret ({["results" := 13%nat]}, 13%nat), r.2) ∧
  (open_for_writing (os_path_join "out" "results_test.json") (world r.2)).1
    = Answer () ∧
  ∃ ds σ2,
    records_at (heap r.2) 13%nat ds ∧
    run demo_self [0%nat] (Some 5%nat) () true (Some "out") (Some 3) demo_state
      = (Ret 13%nat, σ2) ∧
    files σ2 !! os_path_join "out" "results_test.json"
      = Some (tagged (Some 3) ds) ∧
    (∀ e, Some 3 = Some e →
          tagged (Some 3) ds = insert "eval_epoch" (JInt e) <$> ds ∧
          Forall (λ r, r !! "eval_epoch" = Some (JInt e)) (tagged (Some 3) ds)) ∧
    ((Some 3 : option Z) = None → tagged (Some 3) ds = ds).
Proof.
  intros r. split; [exact demo_run_to_results_completes|].
  split; [reflexivity|].
  exact (dump_writes_tagged_records demo_self [0%nat] (Some 5%nat) () "out"
           (Some 3) demo_state _ _ _ demo_run_to_results_completes eq_refl).
Defined.

Lemma epoch_tag_precedes_config_error_witness :
  let r := run_to_results demo_self [0%nat] (Some 5%nat) () demo_state in
  r = (Ret ({["results" := 13%nat]}, 13%nat), r.2) ∧
  ∃ ds o σ2,
    records_at (heap r.2) 13%nat ds ∧
    run demo_self [0%nat] (Some 5%nat) () true None (Some 3) demo_state
      = (o, σ2) ∧
    records_at (heap σ2) 13%nat (insert "eval_epoch" (JInt 3) <$> ds) ∧
    (∀ l, o = Ret l → l = 13%nat) ∧
    ((None : option string) = None →
     o = Raise config_error ∧ files σ2 = files r.2).
Proof.
  intros r. split; [exact demo_run_to_results_completes|].
  exact (epoch_tag_precedes_config_error demo_self [0%nat] (Some 5%nat) ()
           None 3 demo_state _ _ _ demo_run_to_results_completes).
Defined.

(** C2, as stated, fails when the model raises: [dump_to_json] is set and
    [exp_dir] is [None], yet the exception of the model is what [run]
    raises. *)
Lemma config_error_preempted_by_model :
  ¬ ((@run Z Z_Scalar (demo_collaborators true) demo_self [0%nat] None ()
        true None None failing_state).1 = Raise config_error
     ↔ true = true ∧ (None : option string) = None).
Proof.
  intros [_ H]. specialize (H (conj eq_refl eq_refl)).
  vm_compute in H. discriminate H.
Qed.


(** On the concrete batch: the model is shown the second frame zeroed,
    [eval_batch] is shown it as it is. *)
Example demo_calls :
  let seen := view demo_heap demo_attrs in
  let shown := masked_view (known_flags demo_frame_type) seen in
  log (eval_loop demo_self (Some 5%nat) () () [0%nat] [] demo_state).2
    = [EvModelCall (delete "evaluation_mode" shown) EVALUATION;
       EvEvalBatch 3%nat seen 7 "black" () (Some 5%nat)] ∧
  seen !! "image_rgb" = Some (RTensor [[1; 2; 3]; [4; 5; 6]]) ∧
  shown !! "image_rgb" = Some (RTensor [[1; 2; 3]; [0; 0; 0]]).
Proof. by vm_compute. Qed.


Lemma eval_copy_shares_nothing_witness :
  let r := _get_eval_frame_data 0%nat demo_state in
  r = (Ret 5%nat, r.2) ∧
  heap demo_state !! 5%nat = None ∧
  ∃ fin, heap r.2 !! 5%nat = Some (OFrame fin) ∧
         ∀ k lv, fin !! k = Some (VTensor lv) → heap demo_state !! lv = None.
Proof.
  intros r.
  assert (r = (Ret 5%nat, r.2)) as Hr by (by vm_compute).
  split; [exact Hr|].
  exact (eval_copy_shares_nothing demo_state 0%nat 5%nat r.2 Hr).
Defined.

Lemma known_batch_shaped :
  batch_shaped known_state 0%nat known_attrs ["train_known"; "test_known"].
Proof.
  split.
  - reflexivity.
  - intros k l Hk. apply elem_of_map_to_list in Hk.
    vm_compute (map_to_list known_attrs) in Hk.
    repeat (apply elem_of_cons in Hk as [Hk|Hk];
            [injection Hk as -> ?; try discriminate; simplify_eq; eexists; reflexivity|]).
    by apply elem_of_nil in Hk.
  - reflexivity.
  - eexists. eexists. split; reflexivity.
  - intros k Hk.
    repeat (apply elem_of_cons in Hk as [->|Hk]);
      [right|left|right|left|by apply elem_of_nil in Hk]; try reflexivity;
      (eexists; split; [eexists; split; reflexivity|reflexivity]).
Qed.

Lemma masking_known_batch_is_identity_witness :
  batch_shaped known_state 0%nat known_attrs ["train_known"; "test_known"] ∧
  (∀ k t, k ∈ masked_fields → field_tensor known_state known_attrs k t →
          plain t) ∧
  Forall (λ ft, demo_is_known ft = true) ["train_known"; "test_known"] ∧
  ∃ l1 σ' fin,
    _get_eval_frame_data 0%nat known_state = (Ret l1, σ') ∧
    heap σ' !! l1 = Some (OFrame fin) ∧
    view (heap σ') fin = view (heap known_state) known_attrs.
Proof.
  assert (Forall (λ ft, demo_is_known ft = true) ["train_known"; "test_known"])
    as Hknown by (repeat constructor).
  split; [exact known_batch_shaped|].
  split; [intros k t _ _; exact (Z_plain t)|].
  split; [exact Hknown|].
  exact (masking_known_batch_is_identity known_state 0%nat known_attrs
           ["train_known"; "test_known"] known_batch_shaped
           (λ k t _ _, Z_plain t) Hknown).
Defined.

Lemma demo_live_tensors (attrs : gmap string value) (h : gmap loc (obj Z)) :
  map_Forall (λ _ v, match v with
                     | VTensor l => is_Some (h !! l ≫= λ o,
                         match o with OTensor t => Some t | _ => None end)
                     | _ => True
                     end) attrs →
  live_tensors h attrs.
Proof.
  intros Hall k l Hk. specialize (Hall k _ Hk). simpl in Hall.
  destruct Hall as [t Ht]. destruct (h !! l) as [[t'| | |]|]; try done.
  by exists t'.
Qed.

Lemma untyped_live :
  live_tensors (heap untyped_state) (delete "frame_type" demo_attrs).
Proof.
  apply demo_live_tensors. apply map_Forall_to_list.
  vm_compute (map_to_list _). repeat constructor; simpl; by eexists.
Qed.

Lemma masking_needs_its_attributes_witness :
  heap untyped_state !! 0%nat = Some (OFrame (delete "frame_type" demo_attrs)) ∧
  live_tensors (heap untyped_state) (delete "frame_type" demo_attrs) ∧
  (("frame_type" = "frame_type" ∧
    delete "frame_type" demo_attrs !! "frame_type" = None) ∨
   ("frame_type" = "image_rgb" ∧
    (∃ ss, delete "frame_type" demo_attrs !! "frame_type" = Some (VStrs ss)) ∧
    delete "frame_type" demo_attrs !! "image_rgb" = None)) ∧
  (_get_eval_frame_data 0%nat untyped_state).1
    = Raise (AttributeError "frame_type").
Proof.
  assert (("frame_type" = "frame_type" ∧
           delete "frame_type" demo_attrs !! "frame_type" = None) ∨
          ("frame_type" = "image_rgb" ∧
           (∃ ss, delete "frame_type" demo_attrs !! "frame_type"
                    = Some (VStrs ss)) ∧
           delete "frame_type" demo_attrs !! "image_rgb" = None)) as Hk.
  { left. split; reflexivity. }
  split; [reflexivity|]. split; [exact untyped_live|]. split; [exact Hk|].
  exact (masking_needs_its_attributes untyped_state 0%nat
           (delete "frame_type" demo_attrs) "frame_type" eq_refl untyped_live
           Hk).
Defined.

Lemma ragged_live : live_tensors (heap ragged_state) demo_attrs.
Proof.
  apply demo_live_tensors. apply map_Forall_to_list.
  vm_compute (map_to_list _). repeat constructor; simpl; by eexists.
Qed.

Lemma masking_rejects_ragged_batch_witness :
  heap ragged_state !! 0%nat = Some (OFrame demo_attrs) ∧
  live_tensors (heap ragged_state) demo_attrs ∧
  demo_attrs !! "frame_type" = Some (VStrs demo_frame_type) ∧
  demo_attrs !! "image_rgb" = Some (VTensor 1%nat) ∧
  heap ragged_state !! 1%nat = Some (OTensor [[1]; [2]; [3]]) ∧
  length [[1]; [2]; [3]] ≠ length demo_frame_type ∧
  length demo_frame_type ≠ 1%nat ∧
  length [[1]; [2]; [3]] ≠ 1%nat ∧
  (_get_eval_frame_data 0%nat ragged_state).1 = Raise RuntimeError.
Proof.
  assert (length [[1]; [2]; [3]] ≠ length demo_frame_type) as H1 by (simpl; lia).
  assert (length demo_frame_type ≠ 1%nat) as H2 by (simpl; lia).
  assert (length [[1]; [2]; [3]] ≠ 1%nat) as H3 by (simpl; lia).
  repeat (split; [first [reflexivity | exact ragged_live | assumption]|]).
  exact (masking_rejects_ragged_batch ragged_state 0%nat demo_attrs
           demo_frame_type 1%nat [[1]; [2]; [3]] eq_refl ragged_live
           eq_refl eq_refl eq_refl H1 H2 H3).
Defined.

Lemma demo_records_at : records_at (heap records_state) 2%nat demo_records.
Proof. exists [0%nat; 1%nat]. split; [reflexivity|]. by repeat constructor. Qed.

Lemma dump_changes_only_epoch_field_witness :
  let r := _dump_to_json (Some 7) (Some "out") 2%nat records_state in
  records_at (heap records_state) 2%nat demo_records ∧
  r = (r.1, r.2) ∧
  dom (heap r.2) = dom (heap records_state) ∧
  (∀ l ob, heap records_state !! l = Some ob → (∀ d, ob ≠ ODict d) →
           heap r.2 !! l = Some ob) ∧
  (∀ x d, heap records_state !! x = Some (ODict d) →
     ∃ d', heap r.2 !! x = Some (ODict d') ∧
           ∀ key, key ≠ "eval_epoch" → d' !! key = d !! key).
Proof.
  intros r.
  assert (r = (r.1, r.2)) as Hr by (by destruct r).
  split; [exact demo_records_at|]. split; [exact Hr|].
  exact (dump_changes_only_epoch_field (Some 7) (Some "out") 2%nat
           demo_records records_state r.1 r.2 demo_records_at Hr).
Defined.

Lemma dump_again_changes_nothing_witness :
  let r1 := _dump_to_json (Some 7) (Some "out") 2%nat records_state in
  let r2 := _dump_to_json (Some 7) (Some "out") 2%nat r1.2 in
  records_at (heap records_state) 2%nat demo_records ∧
  r1 = (Ret (), r1.2) ∧
  r2 = (r2.1, r2.2) ∧
  heap r2.2 = heap r1.2 ∧ files r2.2 = files r1.2.
Proof.
  intros r1 r2.
  assert (r1 = (Ret (), r1.2)) as H1 by (by vm_compute).
  assert (r2 = (r2.1, r2.2)) as H2 by (by destruct r2).
  split; [exact demo_records_at|]. split; [exact H1|]. split; [exact H2|].
  exact (dump_again_changes_nothing (Some 7) (Some "out") 2%nat demo_records
           records_state r1.2 r2.1 r2.2 demo_records_at H1 H2).
Defined.

Lemma later_dump_overwrites_epoch_witness :
  let r1 := _dump_to_json (Some 7) None 2%nat records_state in
  let r2 := _dump_to_json (Some 8) (Some "out") 2%nat r1.2 in
  records_at (heap records_state) 2%nat demo_records ∧
  r1 = (r1.1, r1.2) ∧
  r2 = (r2.1, r2.2) ∧
  records_at (heap r2.2) 2%nat (insert "eval_epoch" (JInt 8) <$> demo_records).
Proof.
  intros r1 r2.
  assert (r1 = (r1.1, r1.2)) as H1 by (by destruct r1).
  assert (r2 = (r2.1, r2.2)) as H2 by (by destruct r2).
  split; [exact demo_records_at|]. split; [exact H1|]. split; [exact H2|].
  exact (later_dump_overwrites_epoch 7 8 None (Some "out") 2%nat demo_records
           records_state r1.1 r1.2 r2.1 r2.2 demo_records_at H1 H2).
Defined.

Lemma closed_records_at :
  records_at (heap closed_state) 2%nat demo_records.
Proof. exists [0%nat; 1%nat]. split; [reflexivity|]. by repeat constructor. Qed.

Lemma dump_open_failure_witness :
  records_at (heap closed_state) 2%nat demo_records ∧
  (@open_for_writing Z closed_collaborators
     (os_path_join "out" "results_test.json") (world closed_state)).1
    = Fails "FileNotFoundError" ∧
  ∃ σ', @_dump_to_json Z closed_collaborators (Some 7) (Some "out") 2%nat
          closed_state = (Raise (ExternalError "FileNotFoundError"), σ') ∧
        files σ' = files closed_state ∧
        records_at (heap σ') 2%nat (tagged (Some 7) demo_records).
Proof.
  split; [exact closed_records_at|]. split; [reflexivity|].
  exact (@dump_open_failure Z closed_collaborators (Some 7) "out" 2%nat
           demo_records closed_state "FileNotFoundError" closed_records_at
           eq_refl).
Defined.

Lemma run_writes_nothing_before_open_witness :
  let r := run demo_self [0%nat] (Some 5%nat) () true None (Some 3) demo_state in
  r = (r.1, r.2) ∧
  (true = false ∨
   (∃ e σ1, run_to_results demo_self [0%nat] (Some 5%nat) () demo_state
              = (Raise e, σ1)) ∨
   (None : option string) = None ∨
   (∃ st σ1 d s,
      run_to_results demo_self [0%nat] (Some 5%nat) () demo_state
        = (Ret st, σ1) ∧
      (None : option string) = Some d ∧
      (open_for_writing (os_path_join d "results_test.json") (world σ1)).1
        = Fails s)) ∧
  files r.2 = files demo_state.
Proof.
  intros r.
  assert (r = (r.1, r.2)) as Hr by (by destruct r).
  assert (true = false ∨
    (∃ e σ1, run_to_results demo_self [0%nat] (Some 5%nat) () demo_state
               = (Raise e, σ1)) ∨
    (None : option string) = None ∨
    (∃ st σ1 d s,
       run_to_results demo_self [0%nat] (Some 5%nat) () demo_state
         = (Ret st, σ1) ∧
       (None : option string) = Some d ∧
       (open_for_writing (os_path_join d "results_test.json") (world σ1)).1
         = Fails s)) as Hcase.
  { right. right. left. reflexivity. }
  split; [exact Hr|]. split; [exact Hcase|].
  exact (run_writes_nothing_before_open demo_self [0%nat] (Some 5%nat) () true
           None (Some 3) demo_state r.1 r.2 Hr Hcase).
Defined.





Lemma run_returns_summary_records_witness :
  let r := run demo_self [0%nat] (Some 5%nat) () true (Some "out") (Some 3)
             demo_state in
  r = (Ret 13%nat, r.2) ∧
  ∃ per_batch w summary records,
    length per_batch = length [0%nat] ∧
    (summarize_nvs_eval_results per_batch (is_multisequence demo_self)
       (camera_difficulty_bin_breaks demo_self) w).1 = Answer summary ∧
    summary !! "results" = Some records ∧
    records_at (heap r.2) 13%nat (tagged (Some 3) records).
Proof.
  intros r.
  assert (r = (Ret 13%nat, r.2)) as Hr by (by vm_compute).
  split; [exact Hr|].
  exact (run_returns_summary_records demo_self [0%nat] (Some 5%nat) () true
           (Some "out") (Some 3) demo_state 13%nat r.2 Hr).
Defined.

Lemma nan_attrs_inv k v :
  nan_attrs !! k = Some v →
  (k, v) ∈ map_to_list nan_attrs.
Proof. intros Hk. by apply elem_of_map_to_list. Qed.

Lemma nan_batch_shaped :
  batch_shaped nan_state 0%nat nan_attrs demo_frame_type.
Proof.
  split.
  - reflexivity.
  - intros k l Hk. apply nan_attrs_inv in Hk.
    vm_compute (map_to_list nan_attrs) in Hk.
    repeat (apply elem_of_cons in Hk as [Hk|Hk];
            [injection Hk as -> ?; try discriminate; simplify_eq; eexists; reflexivity|]).
    by apply elem_of_nil in Hk.
  - reflexivity.
  - eexists. eexists. split; reflexivity.
  - intros k Hk.
    repeat (apply elem_of_cons in Hk as [->|Hk]);
      [right|left|left|left|by apply elem_of_nil in Hk]; try reflexivity;
      (eexists; split; [eexists; split; reflexivity|reflexivity]).
Qed.

(** C1, as stated, fails on an entry that multiplication by zero does not
    send to zero.  The batch is collated, its second frame is marked unknown
    and holds a not-a-number in [image_rgb]; the copy holds a not-a-number
    there too, so it is not the input with its unknown frames zeroed. *)
Lemma masking_keeps_nan :
  ¬ (batch_shaped nan_state 0%nat nan_attrs demo_frame_type →
     ∃ l1 σ' fin,
       @_get_eval_frame_data fnum fnum_Scalar fnum_collaborators 0%nat nan_state
         = (Ret l1, σ') ∧
       heap σ' !! l1 = Some (OFrame fin) ∧
       ∀ k t, k ∈ masked_fields → field_tensor nan_state nan_attrs k t →
         ∃ t', field_tensor σ' fin k t' ∧
           ∀ i ft row, demo_frame_type !! i = Some ft → t !! i = Some row →
             t' !! i = Some (if demo_is_known ft then row
                             else @zeros fnum fnum_Scalar row)).
Proof.
  intros H. destruct (H nan_batch_shaped) as (l1 & σ' & fin & Hrun & Hfin & Hall).
  pose proof (f_equal fst Hrun) as H1. pose proof (f_equal snd Hrun) as H2.
  cbn [fst snd] in H1, H2. subst σ'.
  vm_compute in H1. injection H1 as <-.
  vm_compute in Hfin. injection Hfin as <-.
  destruct (Hall "image_rgb" [[Finite 1]; [NaN]]) as (t' & (l & Hl & Ht) & Hrows).
  { apply elem_of_cons; by left. }
  { exists 1%nat. split; vm_compute; reflexivity. }
  vm_compute in Hl. injection Hl as <-.
  vm_compute in Ht. injection Ht as <-.
  specialize (Hrows 1%nat "test_unseen" [NaN] eq_refl eq_refl).
  vm_compute in Hrows. discriminate Hrows.
Qed.
